(** * scrape_avif_images.py: a shallow embedding and its properties

    The script drives a browser over one page with infinite scroll and
    collects the URLs of [.avif] images.  The embedding follows the source
    top to bottom:

    - [PyStr]    the two string tests the script uses ([x in s], truthiness);
    - [Re]       a backtracking matcher for the fragment of Python's [re]
                 that the script's pattern needs, and [findall];
    - [Driver]   what the Selenium session answers (the environment);
    - [Script]   [scrape_avif_images] itself, in a small monad that records
                 the calls made on the session and carries Python exceptions;
    - [Page]     the vocabulary of the properties: what a view of the page
                 shows, the state after [n] iterations, the events of a run;
    - [Examples] the pages and sessions the properties are tried on.

    The properties follow: lemmas on the matcher, the scans, one iteration,
    the loop and the run, and then one theorem for each claim C1-C10.

    Strings are byte strings.  Python's [str] is a sequence of code points;
    the pattern only tests ASCII characters, and a UTF-8 encoded code point
    above 127 contains no ASCII byte, so matching byte by byte selects the
    same substrings. *)

From Stdlib Require Import Ascii String ZArith List Lia.
From stdpp Require Import gmap strings list sorting.

(** ** Python string tests *)

Module PyStr.

(** [sub in s] *)
Fixpoint contains (sub s : string) : bool :=
  String.prefix sub s ||
  match s with
  | EmptyString => false
  | String _ s' => contains sub s'
  end.

(** Truth value of a [str]: only the empty string is false. *)
Definition truthy (s : string) : bool :=
  match s with
  | EmptyString => false
  | String _ _ => true
  end.

End PyStr.

(** ** Regular expressions

    Python's [re] is a backtracking matcher: alternatives are tried in a
    fixed priority order (a greedy quantifier tries the longest repetition
    first) and the first complete match wins.  [cands] lists the ways a
    sequence of pieces can match a prefix of the subject, in that order; its
    head is the match [re] reports. *)

Module Re.

(** A one-character matcher: [c], [[...]] or [[^...]]. *)
Inductive cclass :=
| Lit (c : ascii)
| OneOf (cs : list ascii)
| NoneOf (cs : list ascii).

Definition accepts (k : cclass) (c : ascii) : bool :=
  match k with
  | Lit c' => bool_decide (c = c')
  | OneOf cs => bool_decide (c ∈ cs)
  | NoneOf cs => negb (bool_decide (c ∈ cs))
  end.

(** Greedy quantifiers: none, [?], [*], [+]. *)
Inductive quant := Once | Opt | Star | Plus.

Definition piece : Type := cclass * quant.

(** A match of a prefix: the text consumed and the text left. *)
Definition cand : Type := string * string.

Definition push (c : ascii) (m : cand) : cand := (String c m.1, m.2).

Fixpoint star (k : cclass) (s : string) : list cand :=
  match s with
  | String c s' =>
      if accepts k c then (push c <$> star k s') ++ [("", s)] else [("", s)]
  | EmptyString => [("", s)]
  end.

Definition once (k : cclass) (s : string) : list cand :=
  match s with
  | String c s' => if accepts k c then [(String c "", s')] else []
  | EmptyString => []
  end.

Definition plus (k : cclass) (s : string) : list cand :=
  match s with
  | String c s' => if accepts k c then push c <$> star k s' else []
  | EmptyString => []
  end.

Definition piece_cands (p : piece) (s : string) : list cand :=
  match p.2 with
  | Once => once p.1 s
  | Opt => once p.1 s ++ [("", s)]
  | Star => star p.1 s
  | Plus => plus p.1 s
  end.

Definition extend (m1 : string) (m : cand) : cand := (m1 +:+ m.1, m.2).

Fixpoint cands (ps : list piece) (s : string) : list cand :=
  match ps with
  | [] => [("", s)]
  | p :: ps' =>
      m ← piece_cands p s; extend m.1 <$> cands ps' m.2
  end.

(** A pattern with one capturing group: what stands before the group,
    the group, what stands after it. *)
Record pattern := Pattern {
  before : list piece;
  group1 : list piece;
  after : list piece
}.

(** The full matches at the start of [s], in priority order: the group's
    text and the length of the whole match. *)
Definition matches_here (p : pattern) (s : string) : list (string * nat) :=
  m0 ← cands (before p) s;
  g ← cands (group1 p) m0.2;
  m2 ← cands (after p) g.2;
  [(g.1, String.length m0.1 + String.length g.1 + String.length m2.1)].

Definition match_here (p : pattern) (s : string) : option (string * nat) :=
  head (matches_here p s).

(** [re.findall(p, s)] for a pattern with one group: the group of every
    match, scanning left to right; the search resumes where the last
    match ended ([skip] counts the characters of it still to pass), and
    one character further when nothing matches here. *)
Fixpoint findall_from (p : pattern) (skip : nat) (s : string) : list string :=
  match skip with
  | S k =>
      match s with
      | String _ s' => findall_from p k s'
      | EmptyString => []
      end
  | O =>
      match match_here p s with
      | Some (g, n) =>
          g :: match s with
               | String _ s' => findall_from p (pred n) s'
               | EmptyString => []
               end
      | None =>
          match s with
          | String _ s' => findall_from p 0 s'
          | EmptyString => []
          end
      end
  end.

Definition findall (p : pattern) (s : string) : list string :=
  findall_from p 0 s.

Definition lits (s : string) : list piece :=
  (λ c, (Lit c, Once)) <$> list_ascii_of_string s.

(** The double and the single quote. *)
Definition dquote : ascii := "034"%char.
Definition squote : ascii := "039"%char.

(** The script's pattern, with q for either quote character:
    url\( [q]? ( [^q]+ \.avif [^q]* ) [q]? \)   *)
Definition url_avif : pattern :=
  {| before := lits "url(" ++ [(OneOf [dquote; squote], Opt)];
     group1 := [(NoneOf [dquote; squote], Plus)] ++ lits ".avif"
               ++ [(NoneOf [dquote; squote], Star)];
     after := [(OneOf [dquote; squote], Opt); (Lit ")"%char, Once)] |}.

End Re.

(** ** The browser session (the environment)

    Selenium is not part of the repository: what its calls answer is the
    input of the model.  A call either returns or raises an exception (every
    Selenium error derives from Python's [Exception]). *)

Module Driver.

Inductive answer (A : Type) :=
| Returns (a : A)
| Raises (msg : string).
Arguments Returns {A} a.
Arguments Raises {A} msg.

(** A [WebElement]: [get_attribute name] gives the attribute's value, or
    [None] when the element has no such attribute. *)
Record element := Element {
  get_attribute : string → answer (option string)
}.

(** What the session answers during one iteration of the scroll loop, in
    the order of the calls. *)
Record view := View {
  scroll_to_bottom : answer unit;
  img_elements : answer (list element);
  styled_elements : answer (list element);
  page_y_offset : answer Z;
  scroll_height : answer Z;
  inner_height : answer Z;
  scroll_to_bottom_again : answer unit
}.

(** A started browser: the answer to [get url] and the view of the page at
    each iteration of the loop (iterations are numbered from 0). *)
Record session := Session {
  get : string → answer unit;
  views : nat → view
}.

(** The machine the script runs on: what starting each engine gives. *)
Record world := World {
  chrome : answer session;
  firefox : answer session
}.

End Driver.

(** ** The script *)

Module Script.

Import PyStr Driver.

Inductive engine := Chrome | Firefox.

Inductive locator := ByTagName (tag : string) | ByXPath (path : string).

Inductive script := ScrollToBottom | PageYOffset | ScrollHeight | InnerHeight.

(** The lines the script prints (the numbers and URLs they carry, not the
    layout). *)
Inductive line :=
| Initializing
| ChromeNotFound
| NoDriver (msg : string)
| InstallHint
| Loading (url : string)
| Starting
| FoundSoFar (count : nat)
| Stopping (threshold : nat)
| Banner
| Total (count : nat)
| Item (i : nat) (url : string)
| ErrorOccurred (msg : string)
| Traceback
| Closing.

(** What a run does to the outside, in order. *)
Inductive event :=
| Start (e : engine)
| Get (url : string)
| Sleep (seconds : nat)
| ExecuteScript (s : script)
| FindElements (by_ : locator)
| Print (l : line)
| Quit.

Definition is_quit (ev : event) : bool :=
  match ev with
  | Quit => true
  | _ => false
  end.

(** Python exceptions: [Error] stands for any instance of [Exception],
    [SystemExit] is what [sys.exit] raises (it is not an [Exception]). *)
Inductive exc :=
| Error (msg : string)
| SystemExit (code : Z).

(** A computation: the events so far, and a value or a raised exception. *)
Definition M (A : Type) : Type := list event * (exc + A).

Definition ret {A} (a : A) : M A := ([], inr a).

Definition bind {A B} (m : M A) (f : A → M B) : M B :=
  match m.2 with
  | inl e => (m.1, inl e)
  | inr a => (m.1 ++ (f a).1, (f a).2)
  end.

Definition raise {A} (e : exc) : M A := ([], inl e).

Definition emit (ev : event) : M unit := ([ev], inr tt).

Definition after_events {A} (tr : list event) (m : M A) : M A :=
  (tr ++ m.1, m.2).

Declare Scope script_scope.
Delimit Scope script_scope with M.
Notation "x ← m ; k" := (bind m (λ x, k))
  (at level 20, m at level 100, k at level 200, only parsing) : script_scope.
Notation "m ;; k" := (bind m (λ _, k))
  (at level 100, k at level 200, right associativity) : script_scope.
Local Open Scope script_scope.

(** A call on the session: recorded, then its answer. *)
Definition call {A} (ev : event) (a : answer A) : M A :=
  emit ev ;;
  match a with
  | Returns x => ret x
  | Raises msg => raise (Error msg)
  end.

(** The answer of a call that is not recorded (attribute reads). *)
Definition read {A} (a : answer A) : M A :=
  match a with
  | Returns x => ret x
  | Raises msg => raise (Error msg)
  end.

Definition print (l : line) : M unit := emit (Print l).
Definition sleep (seconds : nat) : M unit := emit (Sleep seconds).

(** [try: m except Exception as e: handler e] *)
Definition try_except {A} (m : M A) (handler : string → M A) : M A :=
  match m.2 with
  | inl (Error msg) => after_events m.1 (handler msg)
  | _ => m
  end.

(** [try: m finally: cleanup] *)
Definition try_finally {A} (m : M A) (cleanup : M unit) : M A :=
  match cleanup.2 with
  | inl e => (m.1 ++ cleanup.1, inl e)
  | inr _ => (m.1 ++ cleanup.1, m.2)
  end.

(** [for x in xs: s = f s x] *)
Fixpoint for_each {A S} (f : S → A → M S) (xs : list A) (s : S) : M S :=
  match xs with
  | [] => ret s
  | x :: xs' => s' ← f s x; for_each f xs' s'
  end.

Definition target_url : string := "https://www.magier.com/ad-examples".
Definition max_scroll_attempts : nat := 100.
Definition no_new_images_threshold : nat := 3.
Definition marker : string := ".avif".

Record state := State {
  image_urls : gset string;
  last_count : nat;
  scroll_attempts : nat
}.

Definition initial : state :=
  {| image_urls := ∅; last_count := 0; scroll_attempts := 0 |}.

(** The test of lines 59 and 66 on an attribute that is present, the
    right-hand side of [src and ".avif" in src]. *)
Definition has_marker (s : string) : bool :=
  truthy s && contains marker s.

(** Lines 58-60: one [img] element.  An absent attribute is [None], which
    is false. *)
Definition scan_img (urls : gset string) (img : element) : M (gset string) :=
  src ← read (get_attribute img "src");
  match src with
  | Some s => if has_marker s then ret ({[s]} ∪ urls) else ret urls
  | None => ret urls
  end.

(** Line 69: the URLs of a style text. *)
Definition style_urls (style : string) : list string :=
  Re.findall Re.url_avif style.

(** Lines 65-71: one element with a [style] attribute. *)
Definition scan_styled (urls : gset string) (elem : element) : M (gset string) :=
  style ← read (get_attribute elem "style");
  match style with
  | Some s =>
      if has_marker s
      then ret (foldl (λ acc url, {[url]} ∪ acc) urls (style_urls s))
      else ret urls
  | None => ret urls
  end.

(** Lines 50-71: scroll, wait, and the two scans. *)
Definition scan (v : view) (urls : gset string) : M (gset string) :=
  call (ExecuteScript ScrollToBottom) (scroll_to_bottom v) ;;
  sleep 2 ;;
  images ← call (FindElements (ByTagName "img")) (img_elements v);
  urls1 ← for_each scan_img images urls;
  elements_with_bg ← call (FindElements (ByXPath "//*[@style]")) (styled_elements v);
  for_each scan_styled elements_with_bg urls1.

(** Lines 87-95: the check for the bottom of the page,
    [scroll_position + window_height >= page_height - 10].  The three
    numbers come from JavaScript and are modelled as integers; the test is
    the same comparison on fractional pixels. *)
Definition at_bottom (scroll_position window_height page_height : Z) : bool :=
  bool_decide (page_height - 10 ≤ scroll_position + window_height)%Z.

Definition bottom_check (v : view) : M unit :=
  scroll_position ← call (ExecuteScript PageYOffset) (page_y_offset v);
  page_height ← call (ExecuteScript ScrollHeight) (scroll_height v);
  window_height ← call (ExecuteScript InnerHeight) (inner_height v);
  if at_bottom scroll_position window_height page_height
  then sleep 1 ;;
       call (ExecuteScript ScrollToBottom) (scroll_to_bottom_again v) ;;
       sleep 2
  else ret tt.

Inductive control := Continue | Break.

(** Lines 49-95: the body of the [while] loop. *)
Definition loop_body (v : view) (st : state) : M (control * state) :=
  urls ← scan v (image_urls st);
  let current_count := size urls in
  if bool_decide (last_count st < current_count) then
    print (FoundSoFar current_count) ;;
    bottom_check v ;;
    ret (Continue, {| image_urls := urls; last_count := current_count;
                      scroll_attempts := 0 |})
  else
    let attempts := scroll_attempts st + 1 in
    let st' := {| image_urls := urls; last_count := last_count st;
                  scroll_attempts := attempts |} in
    if bool_decide (no_new_images_threshold ≤ attempts) then
      print (Stopping no_new_images_threshold) ;;
      ret (Break, st')
    else
      bottom_check v ;;
      ret (Continue, st').

(** Lines 48-95: the [while] loop, from iteration [i] on.  Python's loop
    has no bound of its own, so the model takes fuel: [None] says that
    [fuel] iterations did not end the loop.  The result carries the number
    of iterations that ran. *)
Fixpoint scroll_loop (fuel : nat) (views : nat → view) (i : nat) (st : state)
  : option (M (nat * state)) :=
  if bool_decide (scroll_attempts st < max_scroll_attempts) then
    match fuel with
    | O => None
    | S fuel' =>
        let m := loop_body (views i) st in
        match m.2 with
        | inl e => Some (m.1, inl e)
        | inr (Break, st') => Some (m.1, inr (S i, st'))
        | inr (Continue, st') =>
            after_events m.1 <$> scroll_loop fuel' views (S i) st'
        end
    end
  else Some (ret (i, st)).

(** Lines 97-105: the report and the returned list.  [elements] fixes one
    order of the set; Python's [list(set)] promises none. *)
Definition report (urls : gset string) : M (list string) :=
  print Banner ;;
  print (Total (size urls)) ;;
  print Banner ;;
  let sorted := merge_sort String.le (elements urls) in
  for_each (λ _ iu, print (Item iu.1 iu.2)) (zip (seq 1 (length sorted)) sorted) tt ;;
  ret (elements urls).

(** Lines 32-46: up to the loop. *)
Definition open_page (d : session) : M unit :=
  print (Loading target_url) ;;
  call (Get target_url) (get d target_url) ;;
  sleep 3 ;;
  print Starting.

(** Lines 32-105: the body of the [try]. *)
Definition try_block (fuel : nat) (d : session) : option (M (list string)) :=
  let pre := open_page d in
  match pre.2 with
  | inl e => Some (pre.1, inl e)
  | inr _ =>
      (λ run, after_events pre.1 (r ← run; report (image_urls r.2)))
        <$> scroll_loop fuel (views d) 0 initial
  end.

(** Lines 107-111: the handler of [except Exception as e]. *)
Definition on_error (msg : string) : M (list string) :=
  print (ErrorOccurred msg) ;;
  print Traceback ;;
  ret [].

(** Lines 113-115: the [finally] block.  [quit] is a call that returns:
    the drivers' [quit] catches the errors of the remote end itself. *)
Definition release : M unit :=
  print Closing ;;
  emit Quit.

(** Lines 31-115: [try ... except Exception ... finally]. *)
Definition scrape_session (fuel : nat) (d : session) : option (M (list string)) :=
  (λ block, try_finally (try_except block on_error) release)
    <$> try_block fuel d.

(** Lines 19-29: the driver, Chrome first and Firefox second. *)
Definition acquire (w : world) : M session :=
  print Initializing ;;
  try_except (call (Start Chrome) (chrome w))
    (λ _, print ChromeNotFound ;;
          try_except (call (Start Firefox) (firefox w))
            (λ msg, print (NoDriver msg) ;;
                    print InstallHint ;;
                    raise (SystemExit 1))).

Definition scrape_avif_images (fuel : nat) (w : world)
  : option (M (list string)) :=
  let a := acquire w in
  match a.2 with
  | inl e => Some (a.1, inl e)
  | inr d => after_events a.1 <$> scrape_session fuel d
  end.

(** Lines 117-118: the process.  Its exit status is 0 when the function
    returns, the code of a [SystemExit], and 1 for an uncaught exception. *)
Definition exit_status {A} (run : M A) : Z :=
  match run.2 with
  | inr _ => 0
  | inl (SystemExit code) => code
  | inl (Error _) => 1
  end.

Definition main (fuel : nat) (w : world) : option (list event * Z) :=
  (λ run, (run.1, exit_status run)) <$> scrape_avif_images fuel w.

End Script.

(** ** Pages and runs: the vocabulary of the properties *)

Module Page.

Import PyStr Driver Script.

(** The URLs one [img] element, or one styled element, contributes. *)
Definition img_urls (img : element) : list string :=
  match get_attribute img "src" with
  | Returns (Some s) => if has_marker s then [s] else []
  | _ => []
  end.

Definition styled_urls (elem : element) : list string :=
  match get_attribute elem "style" with
  | Returns (Some s) => if has_marker s then style_urls s else []
  | _ => []
  end.

Definition listed (a : answer (list element)) : list element :=
  match a with
  | Returns l => l
  | Raises _ => []
  end.

(** The URLs a view of the page shows: by the [img] scan, by the style
    scan, and together. *)
Definition shown_by_img (v : view) : list string :=
  listed (img_elements v) ≫= img_urls.

Definition shown_by_style (v : view) : list string :=
  listed (styled_elements v) ≫= styled_urls.

Definition shown (v : view) : gset string :=
  list_to_set (shown_by_img v ++ shown_by_style v).

Definition returns {A} (a : answer A) : bool :=
  match a with
  | Returns _ => true
  | Raises _ => false
  end.

(** No call of the scan (lines 50-71) raises on the view. *)
Definition scannable (v : view) : bool :=
  returns (scroll_to_bottom v)
  && returns (img_elements v)
  && forallb (λ e, returns (get_attribute e "src")) (listed (img_elements v))
  && returns (styled_elements v)
  && forallb (λ e, returns (get_attribute e "style")) (listed (styled_elements v)).

(** No call of the bottom check (lines 87-95) raises on the view. *)
Definition measurable (v : view) : bool :=
  returns (page_y_offset v)
  && returns (scroll_height v)
  && returns (inner_height v)
  && returns (scroll_to_bottom_again v).

(** No call on the view raises. *)
Definition calm (v : view) : bool := scannable v && measurable v.

(** The events of a scan, and of a bottom check that finds these numbers. *)
Definition scan_events : list event :=
  [ExecuteScript ScrollToBottom; Sleep 2;
   FindElements (ByTagName "img"); FindElements (ByXPath "//*[@style]")].

Definition measure_events : list event :=
  [ExecuteScript PageYOffset; ExecuteScript ScrollHeight;
   ExecuteScript InnerHeight].

Definition extra_scroll_events : list event :=
  [Sleep 1; ExecuteScript ScrollToBottom; Sleep 2].

(** The state an iteration leaves from the set the scan gives: when the
    set has grown (lines 77-79), and when it has not (line 81). *)
Definition grown (urls : gset string) : state :=
  {| image_urls := urls; last_count := size urls; scroll_attempts := 0 |}.

Definition stalled (st : state) (urls : gset string) : state :=
  {| image_urls := urls; last_count := last_count st;
     scroll_attempts := scroll_attempts st + 1 |}.

(** At the head of the loop the recorded count is the size of the set, and
    fewer than three iterations went by without growth. *)
Definition at_head (st : state) : Prop :=
  last_count st = size (image_urls st)
  ∧ scroll_attempts st < no_new_images_threshold.

(** The state at the head of the loop [n] iterations after iteration [i]
    started in [st], when the loop gets that far. *)
Fixpoint state_after (views : nat → view) (n i : nat) (st : state)
  : option state :=
  match n with
  | O => Some st
  | S n' =>
      if bool_decide (scroll_attempts st < max_scroll_attempts) then
        match (loop_body (views i) st).2 with
        | inr (Continue, st') => state_after views n' (S i) st'
        | _ => None
        end
      else None
  end.

(** The session the script works with: Chrome's, else Firefox's. *)
Definition started (w : world) : option session :=
  match chrome w with
  | Returns d => Some d
  | Raises _ =>
      match firefox w with
      | Returns d => Some d
      | Raises _ => None
      end
  end.

(** The URLs of the [Item] lines of a trace. *)
Definition printed_urls (tr : list event) : list string :=
  omap (λ ev, match ev with Print (Item _ url) => Some url | _ => None end) tr.

(** Every URL of the set has the extension marker in it. *)
Definition marked (urls : gset string) : Prop :=
  ∀ u, u ∈ urls → contains marker u = true.

(** The events before the loop when the page loads, and of the [finally]
    block. *)
Definition opening_events : list event :=
  [Print (Loading target_url); Get target_url; Sleep 3; Print Starting].

Definition closing_events : list event := [Print Closing; Quit].

(** The events the loop can make. *)
Definition loop_event (ev : event) : bool :=
  match ev with
  | ExecuteScript _ | Sleep _ | FindElements _ => true
  | Print (FoundSoFar _) | Print (Stopping _) => true
  | _ => false
  end.

(** The style text of the extension-filter example. *)
Definition style_example : string :=
  "background-image: url("
  +:+ String Re.dquote ("https://x/y.avif?q=1" +:+ String Re.dquote ")").

(** Example pages.  [img_with src] is an [img] element with that source
    and no inline style; [styled_with style] an element with that style. *)
Definition img_with (src : string) : element :=
  {| get_attribute name :=
       Returns (if bool_decide (name = "src") then Some src else None) |}.

Definition styled_with (style : string) : element :=
  {| get_attribute name :=
       Returns (if bool_decide (name = "style") then Some style else None) |}.

(** An element without attributes. *)
Definition bare : element := {| get_attribute _ := Returns None |}.

(** A view with these elements, the window [window] pixels high at offset
    [offset] of a page [height] pixels high. *)
Definition view_of (imgs styled : list element) (offset window height : Z)
  : view :=
  {| scroll_to_bottom := Returns tt;
     img_elements := Returns imgs;
     styled_elements := Returns styled;
     page_y_offset := Returns offset;
     scroll_height := Returns height;
     inner_height := Returns window;
     scroll_to_bottom_again := Returns tt |}.

(** A view on which the first call already raises. *)
Definition broken : view :=
  {| scroll_to_bottom := Raises "stale";
     img_elements := Raises "stale";
     styled_elements := Raises "stale";
     page_y_offset := Raises "stale";
     scroll_height := Raises "stale";
     inner_height := Raises "stale";
     scroll_to_bottom_again := Raises "stale" |}.

End Page.

(** ** Example pages and sessions *)

Module Examples.

Import Driver Script Page.

(** [x...x.avif] with [n] letters x: a different URL for every [n]. *)
Fixpoint fresh_url (n : nat) : string :=
  match n with
  | O => ".avif"
  | S n' => String "x" (fresh_url n')
  end.

(** A page that shows one more image at every scroll, for ever. *)
Definition growing (i : nat) : view :=
  view_of [img_with (fresh_url i)] [] 0 500 1000.

(** The scenario of the specification: two images at the first pass, a
    third one at the second, nothing new afterwards. *)
Definition scenario (i : nat) : view :=
  match i with
  | O => view_of [img_with "a.avif"; img_with "b.avif"] [] 0 500 1000
  | _ => view_of [img_with "a.avif"; img_with "b.avif"; img_with "c.avif"]
                 [] 0 500 1000
  end.

Definition scenario_session : session :=
  {| get _ := Returns tt; views := scenario |}.

(** A page that shows the same image as an [img] and as a background, and
    whose session breaks at the second pass. *)
Definition interrupted (i : nat) : view :=
  match i with
  | O => view_of [img_with "a.avif"]
                 [styled_with "background-image: url(a.avif)"] 0 500 1000
  | _ => broken
  end.

Definition interrupted_session : session :=
  {| get _ := Returns tt; views := interrupted |}.

(** An empty page, the window at its bottom. *)
Definition empty_at_bottom : view := view_of [] [] 500 500 1000.

(** A session whose page does not load. *)
Definition unreachable_session : session :=
  {| get _ := Raises "timeout"; views _ := broken |}.

(** A machine without drivers, and one with Firefox's only. *)
Definition no_engine : world :=
  {| chrome := Raises "no chromedriver"; firefox := Raises "no geckodriver" |}.

Definition firefox_only (d : session) : world :=
  {| chrome := Raises "no chromedriver"; firefox := Returns d |}.

End Examples.

(** ** What a trace tells: counts, numbers, seconds *)

Module Accounting.

Import Driver Script Page.

(** The counts of the progress lines (line 77), in order. *)
Definition progress_counts (tr : list event) : list nat :=
  omap (λ ev, match ev with Print (FoundSoFar n) => Some n | _ => None end) tr.

(** The counts of the lines with the total (line 98). *)
Definition totals (tr : list event) : list nat :=
  omap (λ ev, match ev with Print (Total n) => Some n | _ => None end) tr.

(** The numbers of the lines of the listing (line 103). *)
Definition item_numbers (tr : list event) : list nat :=
  omap (λ ev, match ev with Print (Item i _) => Some i | _ => None end) tr.

(** The seconds slept. *)
Definition slept (tr : list event) : nat :=
  sum_list (omap (λ ev, match ev with Sleep n => Some n | _ => None end) tr).

(** The number of scans of [img] elements, one for each iteration. *)
Definition is_img_scan (ev : event) : bool :=
  match ev with
  | FindElements (ByTagName _) => true
  | _ => false
  end.

Definition scans (tr : list event) : nat := length (filter is_img_scan tr).

(** A text without quote characters. *)
Definition quoteless (s : string) : Prop :=
  Forall (λ c, c ∉ [Re.dquote; Re.squote]) (list_ascii_of_string s).

(** A quote, or nothing. *)
Definition quote_or_empty (q : string) : Prop :=
  q = "" ∨ q = String Re.dquote "" ∨ q = String Re.squote "".

(** A text without a closing, and without an opening, parenthesis. *)
Definition unclosed (s : string) : Prop :=
  Forall (λ c, c ≠ ")"%char) (list_ascii_of_string s).

Definition unopened (s : string) : Prop :=
  Forall (λ c, c ≠ "("%char) (list_ascii_of_string s).

(** The scenario of the specification once more, on another page: the
    same URLs at every pass, but in another order, one of them as a
    background, and the window at the bottom of the page. *)
Definition scenario_at_bottom (i : nat) : view :=
  match i with
  | O => view_of [img_with "b.avif"] [styled_with "background: url(a.avif)"]
                 500 500 1000
  | _ => view_of [img_with "c.avif"; img_with "a.avif"; img_with "b.avif"]
                 [bare] 500 500 1000
  end.

End Accounting.

(** * Properties *)

(** ** Substring test *)

Module PyStrFacts.

Import PyStr.

Lemma app_assoc (a b c : string) : (a +:+ b) +:+ c = a +:+ (b +:+ c).
Proof. induction a as [|x a IH]; [done | exact (f_equal (String x) IH)]. Qed.

Lemma prefix_app (a b : string) : String.prefix a (a +:+ b) = true.
Proof.
  induction a as [|c a IH]; simpl.
  - by destruct b.
  - by destruct (ascii_dec c c).
Qed.

Lemma contains_unfold (sub s : string) :
  contains sub s =
  String.prefix sub s ||
  match s with EmptyString => false | String _ s' => contains sub s' end.
Proof. by destruct s. Qed.

Lemma contains_here (sub b : string) : contains sub (sub +:+ b) = true.
Proof. by rewrite contains_unfold, prefix_app. Qed.

Lemma contains_cons (sub : string) (c : ascii) (s : string) :
  contains sub s = true → contains sub (String c s) = true.
Proof. intros H. simpl. rewrite H. apply orb_true_r. Qed.

Lemma contains_app_r (sub a s : string) :
  contains sub s = true → contains sub (a +:+ s) = true.
Proof.
  intros H. induction a as [|c a IH]; [done|].
  change (String c a +:+ s) with (String c (a +:+ s)).
  by apply contains_cons.
Qed.

Lemma contains_mid (sub a b : string) :
  contains sub (a +:+ sub +:+ b) = true.
Proof. apply contains_app_r, contains_here. Qed.

Lemma prefix_app_l (sub s b : string) :
  String.prefix sub s = true → String.prefix sub (s +:+ b) = true.
Proof.
  revert s. induction sub as [|x sub IH]; intros s.
  - intros _. by destruct (s +:+ b).
  - destruct s as [|c s]; [done|].
    simpl. destruct (ascii_dec x c); [apply IH | done].
Qed.

Lemma contains_app_l (sub s b : string) :
  contains sub s = true → contains sub (s +:+ b) = true.
Proof.
  induction s as [|c s IH].
  - rewrite !contains_unfold. intros H%orb_true_iff.
    destruct H as [H|H]; [|done].
    by rewrite (prefix_app_l _ _ b H).
  - rewrite contains_unfold. intros [H|H]%orb_true_iff.
    + by rewrite contains_unfold, (prefix_app_l _ _ b H).
    + apply (contains_cons sub c (s +:+ b)), IH, H.
Qed.

End PyStrFacts.

(** ** The matcher *)

Module ReFacts.

Import PyStr PyStrFacts Re.

(** A candidate splits the subject: consumed text, then the rest. *)
Lemma star_split k s m : m ∈ star k s → s = m.1 +:+ m.2.
Proof.
  revert m. induction s as [|c s IH]; intros m; simpl.
  - by intros ->%list_elem_of_singleton.
  - destruct (accepts k c).
    + intros [H | ->%list_elem_of_singleton]%elem_of_app; [|done].
      apply list_elem_of_fmap in H as (m' & -> & Hm').
      simpl. by rewrite (IH _ Hm') at 1.
    + by intros ->%list_elem_of_singleton.
Qed.

Lemma once_split k s m : m ∈ once k s → s = m.1 +:+ m.2.
Proof.
  destruct s as [|c s]; simpl; [by intros ?%elem_of_nil|].
  destruct (accepts k c); [|by intros ?%elem_of_nil].
  by intros ->%list_elem_of_singleton.
Qed.

Lemma plus_split k s m : m ∈ plus k s → s = m.1 +:+ m.2.
Proof.
  destruct s as [|c s]; simpl; [by intros ?%elem_of_nil|].
  destruct (accepts k c); [|by intros ?%elem_of_nil].
  intros (m' & -> & Hm')%list_elem_of_fmap.
  simpl. by rewrite (star_split _ _ _ Hm') at 1.
Qed.

Lemma piece_cands_split p s m : m ∈ piece_cands p s → s = m.1 +:+ m.2.
Proof.
  unfold piece_cands. destruct (p.2).
  - apply once_split.
  - intros [H | ->%list_elem_of_singleton]%elem_of_app; [|done].
    by apply once_split in H.
  - apply star_split.
  - apply plus_split.
Qed.

Lemma elem_of_cands_cons p ps s m :
  m ∈ cands (p :: ps) s ↔
  ∃ x y, x ∈ piece_cands p s ∧ y ∈ cands ps x.2 ∧ m = extend x.1 y.
Proof.
  simpl. rewrite list_elem_of_bind. split.
  - intros (x & (y & -> & Hy)%list_elem_of_fmap & Hx). eauto.
  - intros (x & y & Hx & Hy & ->). exists x. split; [|done].
    apply list_elem_of_fmap. eauto.
Qed.

Lemma cands_split ps s m : m ∈ cands ps s → s = m.1 +:+ m.2.
Proof.
  revert s m. induction ps as [|p ps IH]; intros s m.
  - by intros ->%list_elem_of_singleton.
  - intros (x & y & Hx & Hy & ->)%elem_of_cands_cons. simpl.
    rewrite app_assoc, <- (IH _ _ Hy). by apply (piece_cands_split p).
Qed.

(** Matching [ps1 ++ ps2] is matching [ps1], then [ps2] on the rest. *)
Lemma elem_of_cands_app ps1 ps2 s m :
  m ∈ cands (ps1 ++ ps2) s →
  ∃ m1 m2, m1 ∈ cands ps1 s ∧ m2 ∈ cands ps2 m1.2 ∧ m = extend m1.1 m2.
Proof.
  revert s m. induction ps1 as [|p ps1 IH]; intros s m.
  - intros H. exists ("", s), m. split; [by apply list_elem_of_singleton|].
    split; [done | by destruct m].
  - change ((p :: ps1) ++ ps2) with (p :: (ps1 ++ ps2)).
    intros (x & y & Hx & Hy & ->)%elem_of_cands_cons.
    destruct (IH _ _ Hy) as (m1 & m2 & H1 & H2 & ->).
    exists (extend x.1 m1), m2. split; [|split; [done|]].
    + apply elem_of_cands_cons. eauto.
    + unfold extend. simpl. by rewrite app_assoc.
Qed.

(** A literal word consumes exactly itself. *)
Lemma cands_lits w s m : m ∈ cands (lits w) s → m.1 = w.
Proof.
  revert s m. induction w as [|c w IH]; intros s m.
  - by intros ->%list_elem_of_singleton.
  - change (lits (String c w)) with ((Lit c, Once) :: lits w).
    intros (x & y & Hx & Hy & ->)%elem_of_cands_cons.
    unfold piece_cands in Hx. simpl in Hx.
    destruct s as [|c' s]; simpl in Hx; [by apply elem_of_nil in Hx|].
    case_bool_decide as Hc; [|by apply elem_of_nil in Hx].
    apply list_elem_of_singleton in Hx as ->. subst c'. simpl in *.
    by rewrite (IH _ _ Hy).
Qed.

(** The text of the group of [url_avif] has the marker in it. *)
Lemma group1_marker s m :
  m ∈ cands (group1 url_avif) s → ∃ a b, m.1 = a +:+ ".avif" +:+ b.
Proof.
  intros (m1 & m' & _ & H' & ->)%elem_of_cands_app.
  apply elem_of_cands_app in H' as (m2 & m3 & H2 & _ & ->).
  apply cands_lits in H2. exists m1.1, m3.1. simpl. by rewrite H2.
Qed.

(** A match at the start of [s]: the group lies inside [s]. *)
Lemma matches_here_inside p s g n :
  (g, n) ∈ matches_here p s →
  ∃ pre post m, s = pre +:+ g +:+ post ∧ m ∈ cands (group1 p) (g +:+ post) ∧ m.1 = g.
Proof.
  unfold matches_here. intros (m0 & H & H0)%list_elem_of_bind.
  apply list_elem_of_bind in H as (m1 & H & H1).
  apply list_elem_of_bind in H as (m2 & H & H2).
  apply list_elem_of_singleton in H. injection H as -> ->.
  exists m0.1, m1.2, m1. apply cands_split in H0.
  pose proof (cands_split _ _ _ H1) as E1.
  rewrite <- E1. by rewrite <- H0.
Qed.

Lemma match_here_marker s g n :
  match_here url_avif s = Some (g, n) →
  contains ".avif" g = true ∧ contains ".avif" s = true.
Proof.
  intros H%head_Some_elem_of.
  apply matches_here_inside in H as (pre & post & m & -> & Hm & <-).
  apply group1_marker in Hm as (a & b & E).
  assert (contains ".avif" m.1 = true) as Hg by (rewrite E; apply contains_mid).
  split; [done|]. by apply contains_app_r, contains_app_l.
Qed.

(** Every string [findall] returns is the group of a match at some
    position of the subject. *)
Lemma findall_from_match p skip s g :
  g ∈ findall_from p skip s →
  ∃ pre t n, s = pre +:+ t ∧ match_here p t = Some (g, n).
Proof.
  revert skip.
  induction s as [|c s IH]; intros skip; destruct skip as [|k]; simpl.
  - destruct (match_here p "") as [[g' n]|] eqn:E; [|by intros ?%elem_of_nil].
    intros ->%list_elem_of_singleton. by exists "", "", n.
  - by intros ?%elem_of_nil.
  - destruct (match_here p (String c s)) as [[g' n]|] eqn:E.
    + intros [-> | H]%elem_of_cons; [by exists "", (String c s), n|].
      destruct (IH _ H) as (pre & t & n' & -> & Ht).
      by exists (String c pre), t, n'.
    + intros H. destruct (IH _ H) as (pre & t & n' & -> & Ht).
      by exists (String c pre), t, n'.
  - intros H. destruct (IH _ H) as (pre & t & n' & -> & Ht).
    by exists (String c pre), t, n'.
Qed.

Lemma findall_marker s g :
  g ∈ findall url_avif s →
  contains ".avif" g = true ∧ contains ".avif" s = true.
Proof.
  unfold findall. intros H.
  apply findall_from_match in H as (pre & t & n & -> & Ht).
  apply match_here_marker in Ht as [Hg Ht].
  split; [done | by apply contains_app_r].
Qed.

Lemma findall_no_marker s :
  contains ".avif" s = false → findall url_avif s = [].
Proof.
  intros Hs. destruct (findall url_avif s) as [|g l] eqn:E; [done|].
  assert (g ∈ findall url_avif s) as H by (rewrite E; left).
  apply findall_marker in H as [_ H]. congruence.
Qed.

End ReFacts.

(** ** The script's monad *)

Module MFacts.

Import Script.

Lemma bind_returned {A B} (m : M A) (f : A → M B) tr a :
  m = (tr, inr a) → bind m f = after_events tr (f a).
Proof. by intros ->. Qed.

Lemma bind_raised {A B} (m : M A) (f : A → M B) tr e :
  m = (tr, inl e) → bind m f = (tr, inl e).
Proof. by intros ->. Qed.

Lemma bind_inr {A B} (m : M A) (f : A → M B) tr b :
  bind m f = (tr, inr b) →
  ∃ tr1 a tr2, m = (tr1, inr a) ∧ f a = (tr2, inr b) ∧ tr = tr1 ++ tr2.
Proof.
  destruct m as [tr1 [e|a]]; unfold bind; simpl; [done|].
  destruct (f a) as [tr2 r] eqn:E. simpl. intros [= <- ->].
  by exists tr1, a, tr2.
Qed.

Lemma after_events_nil {A} (m : M A) : after_events [] m = m.
Proof. by destruct m. Qed.

Lemma bind_ret {A B} (a : A) (f : A → M B) : bind (ret a) f = f a.
Proof. unfold bind, ret. simpl. by destruct (f a). Qed.

Lemma bind_emit {B} (ev : event) (f : unit → M B) :
  bind (emit ev) f = after_events [ev] (f tt).
Proof. done. Qed.

Lemma bind_pair {A B} tr (a : A) (f : A → M B) :
  bind (tr, inr a) f = after_events tr (f a).
Proof. done. Qed.

Lemma bind_after {A B} tr (m : M A) (f : A → M B) :
  bind (after_events tr m) f = after_events tr (bind m f).
Proof.
  destruct m as [tr' [e|a]]; unfold bind, after_events; simpl; [done|].
  by rewrite (assoc_L (++)).
Qed.

Lemma call_returns {A} ev (a : A) : call ev (Driver.Returns a) = ([ev], inr a).
Proof. done. Qed.

Lemma call_raises {A} ev msg :
  call (A:=A) ev (Driver.Raises msg) = ([ev], inl (Error msg)).
Proof. done. Qed.

Lemma after_events_pair {A} tr tr' (r : exc + A) :
  after_events tr (tr', r) = (tr ++ tr', r).
Proof. done. Qed.

Lemma after_events_app {A} tr1 tr2 (m : M A) :
  after_events tr1 (after_events tr2 m) = after_events (tr1 ++ tr2) m.
Proof. unfold after_events. simpl. by rewrite (assoc_L (++)). Qed.

Lemma bind_assoc {A B C} (m : M A) (f : A → M B) (g : B → M C) :
  bind (bind m f) g = bind m (λ a, bind (f a) g).
Proof.
  destruct m as [tr [e|a]]; [done|].
  rewrite !bind_pair. apply bind_after.
Qed.

Lemma bind_ext {A B} (m : M A) (f g : A → M B) :
  (∀ a, f a = g a) → bind m f = bind m g.
Proof. intros H. destruct m as [tr [e|a]]; [done|]. by rewrite !bind_pair, H. Qed.

Lemma for_each_app {A S} (f : S → A → M S) (l1 l2 : list A) (s : S) :
  for_each f (l1 ++ l2) s = bind (for_each f l1 s) (for_each f l2).
Proof.
  revert s. induction l1 as [|x l1 IH]; intros s; simpl.
  - by rewrite bind_ret.
  - rewrite bind_assoc. by apply bind_ext.
Qed.

(** One step of a computation whose head is known. *)
Ltac step :=
  first [ rewrite call_returns | rewrite call_raises | rewrite bind_pair
        | rewrite bind_ret | rewrite bind_emit | rewrite bind_after
        | rewrite after_events_app | rewrite after_events_pair ].

End MFacts.

(** ** The two scans *)

Module ScanFacts.

Import PyStr Driver Script Page PyStrFacts ReFacts MFacts.

Lemma scan_img_eq urls img :
  scan_img urls img =
  match get_attribute img "src" with
  | Returns _ => ret (list_to_set (img_urls img) ∪ urls)
  | Raises msg => raise (Error msg)
  end.
Proof.
  unfold scan_img, img_urls, read.
  destruct (get_attribute img "src") as [src|msg]; [|done].
  rewrite bind_ret. destruct src as [s|]; [destruct (has_marker s)|];
    unfold ret; f_equal; f_equal; set_solver.
Qed.

Lemma add_all_eq (l : list string) (urls : gset string) :
  foldl (λ acc url, {[url]} ∪ acc) urls l = list_to_set l ∪ urls.
Proof.
  revert urls. induction l as [|u l IH]; intros urls; simpl.
  - set_solver.
  - rewrite IH. set_solver.
Qed.

Lemma scan_styled_eq urls elem :
  scan_styled urls elem =
  match get_attribute elem "style" with
  | Returns _ => ret (list_to_set (styled_urls elem) ∪ urls)
  | Raises msg => raise (Error msg)
  end.
Proof.
  unfold scan_styled, styled_urls, read.
  destruct (get_attribute elem "style") as [style|msg]; [|done].
  rewrite bind_ret. destruct style as [s|]; [destruct (has_marker s)|];
    unfold ret; f_equal; f_equal; [apply add_all_eq | set_solver | set_solver].
Qed.

(** A [for] loop over elements whose attribute reads all return. *)
Lemma for_each_imgs imgs urls :
  forallb (λ e, returns (get_attribute e "src")) imgs = true →
  for_each scan_img imgs urls = ret (list_to_set (imgs ≫= img_urls) ∪ urls).
Proof.
  revert urls. induction imgs as [|img imgs IH]; intros urls; simpl.
  - intros _. unfold ret. f_equal. f_equal. set_solver.
  - intros [Hi Hs]%andb_true_iff. rewrite scan_img_eq.
    destruct (get_attribute img "src"); [|done].
    rewrite bind_ret, (IH _ Hs).
    unfold ret. f_equal. f_equal. set_solver.
Qed.

Lemma for_each_styled elems urls :
  forallb (λ e, returns (get_attribute e "style")) elems = true →
  for_each scan_styled elems urls
  = ret (list_to_set (elems ≫= styled_urls) ∪ urls).
Proof.
  revert urls. induction elems as [|elem elems IH]; intros urls; simpl.
  - intros _. unfold ret. f_equal. f_equal. set_solver.
  - intros [Hi Hs]%andb_true_iff. rewrite scan_styled_eq.
    destruct (get_attribute elem "style"); [|done].
    rewrite bind_ret, (IH _ Hs).
    unfold ret. f_equal. f_equal. set_solver.
Qed.

(** When a read raises, the [for] loop raises, without events. *)
Lemma for_each_imgs_raises imgs urls :
  forallb (λ e, returns (get_attribute e "src")) imgs = false →
  ∃ msg, for_each scan_img imgs urls = raise (Error msg).
Proof.
  revert urls. induction imgs as [|img imgs IH]; intros urls; simpl; [done|].
  rewrite scan_img_eq.
  destruct (get_attribute img "src") as [src|msg]; simpl.
  - intros Hs. rewrite bind_ret. by apply IH.
  - intros _. by exists msg.
Qed.

Lemma for_each_styled_raises elems urls :
  forallb (λ e, returns (get_attribute e "style")) elems = false →
  ∃ msg, for_each scan_styled elems urls = raise (Error msg).
Proof.
  revert urls. induction elems as [|elem elems IH]; intros urls; simpl; [done|].
  rewrite scan_styled_eq.
  destruct (get_attribute elem "style") as [style|msg]; simpl.
  - intros Hs. rewrite bind_ret. by apply IH.
  - intros _. by exists msg.
Qed.

(** A scan of a scannable view adds what the view shows, and nothing
    else happens to the set. *)
Lemma scan_scannable v urls :
  scannable v = true → scan v urls = (scan_events, inr (shown v ∪ urls)).
Proof.
  unfold scannable, scan, shown, shown_by_img, shown_by_style.
  rewrite !andb_true_iff. intros [[[[Hs Hr] Hi] Hr'] He].
  destruct (scroll_to_bottom v) as [[]|]; [|done].
  destruct (img_elements v) as [imgs|]; [|done].
  destruct (styled_elements v) as [elems|]; [|done].
  simpl in Hi, He. unfold sleep. repeat step.
  rewrite (for_each_imgs _ _ Hi). repeat step.
  rewrite (for_each_styled _ _ He). unfold ret. repeat step.
  unfold scan_events. simpl. f_equal. f_equal.
  rewrite list_to_set_app_L. set_solver.
Qed.

(** Otherwise the scan raises an [Exception]. *)
Lemma scan_unscannable v urls :
  scannable v = false → ∃ tr msg, scan v urls = (tr, inl (Error msg)).
Proof.
  unfold scannable, scan, sleep.
  destruct (scroll_to_bottom v) as [[]|msg]; [|by eexists _, msg].
  destruct (img_elements v) as [imgs|msg];
    [|repeat step; by eexists _, msg].
  repeat step. simpl.
  destruct (forallb _ imgs) eqn:Hi; simpl.
  - rewrite (for_each_imgs _ _ Hi). repeat step.
    destruct (styled_elements v) as [elems|msg];
      [|repeat step; by eexists _, msg].
    repeat step. simpl. intros He.
    destruct (for_each_styled_raises _ (list_to_set (imgs ≫= img_urls) ∪ urls) He)
      as [msg ->].
    by eexists _, msg.
  - intros _. destruct (for_each_imgs_raises _ urls Hi) as [msg ->].
    by eexists _, msg.
Qed.

Lemma scan_inr v urls tr urls' :
  scan v urls = (tr, inr urls') →
  scannable v = true ∧ tr = scan_events ∧ urls' = shown v ∪ urls.
Proof.
  destruct (scannable v) eqn:Hv.
  - rewrite (scan_scannable _ _ Hv). by intros [= <- <-].
  - destruct (scan_unscannable _ urls Hv) as (tr' & msg & ->). done.
Qed.

End ScanFacts.

(** ** One iteration of the loop *)

Module BodyFacts.

Import PyStr Driver Script Page MFacts ScanFacts.

(** The bottom check raises only [Exception]s; when it returns, the three
    measures returned and the extra scroll was made exactly when the window
    was within 10 pixels of the bottom. *)
Lemma bottom_check_cases v :
  (∃ y h w,
      page_y_offset v = Returns y ∧ scroll_height v = Returns h
      ∧ inner_height v = Returns w
      ∧ (at_bottom y w h = true → scroll_to_bottom_again v = Returns tt)
      ∧ bottom_check v
        = (measure_events
             ++ (if at_bottom y w h then extra_scroll_events else []),
           inr tt))
  ∨ (measurable v = false ∧ ∃ tr msg, bottom_check v = (tr, inl (Error msg))).
Proof.
  unfold bottom_check, measurable, sleep.
  destruct (page_y_offset v) as [y|msg];
    [|right; split; [done|]; repeat step; by eexists _, msg].
  destruct (scroll_height v) as [h|msg];
    [|right; split; [done|]; repeat step; by eexists _, msg].
  destruct (inner_height v) as [w|msg];
    [|right; split; [done|]; repeat step; by eexists _, msg].
  repeat step. destruct (at_bottom y w h) eqn:Hb.
  - destruct (scroll_to_bottom_again v) as [[]|msg].
    + left. exists y, h, w. repeat step. by rewrite Hb.
    + right. split; [done|]. repeat step. by eexists _, msg.
  - left. exists y, h, w. rewrite Hb. unfold ret. repeat step. done.
Qed.

Lemma bottom_check_measurable v :
  measurable v = true → ∃ tr, bottom_check v = (tr, inr tt).
Proof.
  intros Hv. destruct (bottom_check_cases v) as
    [(y & h & w & _ & _ & _ & _ & ->) | [Hv' _]]; [eauto | congruence].
Qed.

(** What an iteration that does not raise returns, and its events. *)
Lemma loop_body_inr v st tr c st' :
  loop_body v st = (tr, inr (c, st')) →
  let urls := shown v ∪ image_urls st in
  scannable v = true ∧
  ((last_count st < size urls ∧ c = Continue ∧ st' = grown urls
    ∧ ∃ tr', bottom_check v = (tr', inr tt)
           ∧ tr = scan_events ++ [Print (FoundSoFar (size urls))] ++ tr')
   ∨ (¬ last_count st < size urls
      ∧ no_new_images_threshold ≤ scroll_attempts st + 1
      ∧ c = Break ∧ st' = stalled st urls
      ∧ tr = scan_events ++ [Print (Stopping no_new_images_threshold)])
   ∨ (¬ last_count st < size urls
      ∧ ¬ no_new_images_threshold ≤ scroll_attempts st + 1
      ∧ c = Continue ∧ st' = stalled st urls
      ∧ ∃ tr', bottom_check v = (tr', inr tt) ∧ tr = scan_events ++ tr')).
Proof.
  unfold loop_body. destruct (scannable v) eqn:Hv.
  2:{ destruct (scan_unscannable _ (image_urls st) Hv) as (tr1 & msg & ->).
      done. }
  rewrite (scan_scannable _ _ Hv), bind_pair. cbv zeta.
  intros H. split; [done|]. revert H.
  case_bool_decide as Hg; [|case_bool_decide as Hs]; unfold print.
  - repeat step. destruct (bottom_check v) as [tr' [e|[]]]; [done|].
    unfold ret. repeat step. intros [= <- <- <-]. left.
    split_and!; try done. exists tr'. split; [done|].
    by rewrite (right_id_L [] (++)).
  - unfold ret. repeat step. intros [= <- <- <-]. right. left. done.
  - destruct (bottom_check v) as [tr' [e|[]]]; [done|].
    unfold ret. repeat step. intros [= <- <- <-]. right. right.
    split_and!; try done. exists tr'. split; [done|].
    by rewrite (right_id_L [] (++)).
Qed.

(** On a calm view the iteration does not raise. *)
Lemma loop_body_calm v st :
  calm v = true → ∃ tr c st', loop_body v st = (tr, inr (c, st')).
Proof.
  unfold calm. intros [Hv Hm]%andb_true_iff.
  destruct (bottom_check_measurable _ Hm) as [tr' Hb].
  unfold loop_body. rewrite (scan_scannable _ _ Hv), bind_pair. cbv zeta.
  case_bool_decide; [|case_bool_decide]; unfold print, ret;
    repeat step; rewrite ?Hb; repeat step; eauto.
Qed.

(** An iteration raises nothing but [Exception]s. *)
Lemma loop_body_no_exit v st tr code :
  loop_body v st ≠ (tr, inl (SystemExit code)).
Proof.
  unfold loop_body. destruct (scannable v) eqn:Hv.
  2:{ destruct (scan_unscannable _ (image_urls st) Hv) as (tr1 & msg & ->).
      done. }
  rewrite (scan_scannable _ _ Hv), bind_pair. cbv zeta.
  destruct (bottom_check_cases v) as
    [(y & h & w & _ & _ & _ & _ & Hb) | [_ (tr' & msg & Hb)]];
    case_bool_decide; try case_bool_decide; unfold print, ret;
    repeat step; rewrite ?Hb; repeat step; done.
Qed.

(** On a view that cannot be scanned the iteration raises. *)
Lemma loop_body_unscannable v st :
  scannable v = false → ∃ tr msg, loop_body v st = (tr, inl (Error msg)).
Proof.
  intros Hv. unfold loop_body.
  destruct (scan_unscannable _ (image_urls st) Hv) as (tr & msg & ->).
  by exists tr, msg.
Qed.

End BodyFacts.

(** ** The loop *)

Module LoopFacts.

Import PyStr Driver Script Page MFacts ScanFacts BodyFacts.

Lemma scroll_loop_continue fuel views i st tr st' :
  scroll_attempts st < max_scroll_attempts →
  loop_body (views i) st = (tr, inr (Continue, st')) →
  scroll_loop (S fuel) views i st
  = after_events tr <$> scroll_loop fuel views (S i) st'.
Proof. intros Hg Hb. simpl. rewrite bool_decide_true, Hb; done. Qed.

Lemma scroll_loop_break fuel views i st tr st' :
  scroll_attempts st < max_scroll_attempts →
  loop_body (views i) st = (tr, inr (Break, st')) →
  scroll_loop (S fuel) views i st = Some (tr, inr (S i, st')).
Proof. intros Hg Hb. simpl. rewrite bool_decide_true, Hb; done. Qed.

Lemma scroll_loop_raise fuel views i st tr e :
  scroll_attempts st < max_scroll_attempts →
  loop_body (views i) st = (tr, inl e) →
  scroll_loop (S fuel) views i st = Some (tr, inl e).
Proof. intros Hg Hb. simpl. rewrite bool_decide_true, Hb; done. Qed.

(** More fuel does not change a finished loop. *)
Lemma scroll_loop_fuel fuel fuel' views i st r :
  scroll_loop fuel views i st = Some r → fuel ≤ fuel' →
  scroll_loop fuel' views i st = Some r.
Proof.
  revert fuel' i st r. induction fuel as [|fuel IH]; intros fuel' i st r.
  - destruct fuel'; simpl; case_bool_decide; done.
  - intros H Hle. destruct fuel' as [|fuel']; [lia|]. revert H. simpl.
    case_bool_decide as Hguard; [|done].
    destruct (loop_body (views i) st) as [tr [e|[[] st']]]; simpl; try done.
    destruct (scroll_loop fuel views (S i) st') as [r'|] eqn:E; [|done].
    rewrite (IH fuel' _ _ _ E); [done | lia].
Qed.

(** The loop after [n] iterations is the loop from the state they reach. *)
Lemma scroll_loop_after views n i st st' fuel :
  state_after views n i st = Some st' →
  snd <$> scroll_loop (n + fuel) views i st
  = snd <$> scroll_loop fuel views (i + n) st'.
Proof.
  revert i st. induction n as [|n IH]; intros i st; simpl.
  - intros [= ->]. by rewrite Nat.add_0_r.
  - case_bool_decide as Hguard; [|done].
    destruct (loop_body (views i) st) as [tr [e|[[] st1]]]; simpl; try done.
    intros H. rewrite <- Nat.add_succ_comm, <- (IH _ _ H).
    by destruct (scroll_loop (n + fuel) views (S i) st1).
Qed.

Lemma state_after_add views n m i st :
  state_after views (n + m) i st
  = state_after views n i st ≫= state_after views m (i + n).
Proof.
  revert i st. induction n as [|n IH]; intros i st; simpl.
  - by rewrite Nat.add_0_r.
  - case_bool_decide as Hguard; [|done].
    destruct (loop_body (views i) st) as [tr [e|[[] st1]]]; simpl; try done.
    by rewrite IH, Nat.add_succ_comm.
Qed.

(** The set only grows: in one iteration, over iterations, up to the end. *)
Lemma loop_body_grows v st tr c st' :
  loop_body v st = (tr, inr (c, st')) →
  image_urls st' = shown v ∪ image_urls st.
Proof.
  intros H. apply loop_body_inr in H as [_ H]. simpl in H.
  destruct H as [(_ & _ & -> & _) | [(_ & _ & _ & -> & _) | (_ & _ & _ & -> & _)]];
    done.
Qed.

Lemma state_after_grows views n i st st' :
  state_after views n i st = Some st' → image_urls st ⊆ image_urls st'.
Proof.
  revert i st. induction n as [|n IH]; intros i st; simpl.
  - by intros [= ->].
  - case_bool_decide as Hguard; [|done].
    destruct (loop_body (views i) st) as [tr [e|[[] st1]]] eqn:E; simpl;
      try done.
    intros H. apply IH in H. apply loop_body_grows in E. set_solver.
Qed.

Lemma scroll_loop_grows fuel views i st tr m final :
  scroll_loop fuel views i st = Some (tr, inr (m, final)) →
  image_urls st ⊆ image_urls final.
Proof.
  revert i st tr. induction fuel as [|fuel IH]; intros i st tr; simpl.
  - case_bool_decide as Hguard; [done|]. by intros [= _ _ ->].
  - case_bool_decide as Hguard; [|by intros [= _ _ ->]].
    destruct (loop_body (views i) st) as [tr1 [e|[[] st1]]] eqn:E; simpl;
      try done.
    + destruct (scroll_loop fuel views (S i) st1) as [[tr2 r]|] eqn:E2;
        [|done].
      simpl. intros [= _ ->]. apply IH in E2. apply loop_body_grows in E.
      set_solver.
    + intros [= _ _ ->]. apply loop_body_grows in E. set_solver.
Qed.

(** Every state on the way is below the final one. *)
Lemma state_after_below_final fuel views n s tr m final :
  scroll_loop fuel views 0 initial = Some (tr, inr (m, final)) →
  state_after views n 0 initial = Some s →
  image_urls s ⊆ image_urls final.
Proof.
  intros Hrun Hs.
  pose proof (scroll_loop_after views n 0 initial s fuel Hs) as E.
  rewrite (scroll_loop_fuel _ (n + fuel) _ _ _ _ Hrun) in E by lia.
  simpl in E. destruct (scroll_loop fuel views n s) as [[tr' r]|] eqn:E';
    [|done].
  simpl in E. injection E as <-. by apply scroll_loop_grows in E'.
Qed.

Lemma at_head_initial : at_head initial.
Proof. split; [done | unfold no_new_images_threshold; simpl; lia]. Qed.

Lemma loop_body_at_head v st tr st' :
  at_head st → loop_body v st = (tr, inr (Continue, st')) → at_head st'.
Proof.
  intros [Hc Ha] H. apply loop_body_inr in H as [_ H]. simpl in H.
  destruct H as [(_ & _ & -> & _) | [(_ & _ & [=] & _) | (Hg & Hs & _ & -> & _)]].
  - split; [done | unfold no_new_images_threshold; simpl; lia].
  - split; simpl; [|lia].
    assert (size (image_urls st) ≤ size (shown v ∪ image_urls st))
      by (apply subseteq_size; set_solver).
    lia.
Qed.

Lemma state_after_at_head views n i st st' :
  at_head st → state_after views n i st = Some st' → at_head st'.
Proof.
  revert i st. induction n as [|n IH]; intros i st Hst; simpl.
  - by intros [= <-].
  - case_bool_decide as Hguard; [|done].
    destruct (loop_body (views i) st) as [tr [e|[[] st1]]] eqn:E; simpl;
      try done.
    apply IH. by eapply loop_body_at_head.
Qed.

End LoopFacts.

(** ** Events *)

Module EventFacts.

Import PyStr Driver Script Page MFacts ScanFacts BodyFacts LoopFacts.

Section closure.

Context (P : event → Prop).

Lemma events_bind {A B} (m : M A) (f : A → M B) :
  Forall P m.1 → (∀ a, Forall P (f a).1) → Forall P (bind m f).1.
Proof.
  destruct m as [tr [e|a]]; unfold bind; simpl; [done|].
  intros H Hf. apply Forall_app. auto.
Qed.

Lemma events_emit ev : P ev → Forall P (emit ev).1.
Proof. intros H. simpl. by constructor. Qed.

Lemma events_call {A} ev (a : answer A) : P ev → Forall P (call ev a).1.
Proof. intros H. destruct a; simpl; by constructor. Qed.

Lemma events_read {A} (a : answer A) : Forall P (read a).1.
Proof. destruct a; simpl; constructor. Qed.

Lemma events_ret {A} (a : A) : Forall P (ret a).1.
Proof. constructor. Qed.

Lemma events_for_each {A S} (f : S → A → M S) xs s :
  (∀ s x, Forall P (f s x).1) → Forall P (for_each f xs s).1.
Proof.
  intros Hf. revert s. induction xs as [|x xs IH]; intros s; simpl.
  - constructor.
  - apply events_bind; auto.
Qed.

Lemma events_after {A} tr (m : M A) :
  Forall P tr → Forall P m.1 → Forall P (after_events tr m).1.
Proof. intros. simpl. apply Forall_app. auto. Qed.

End closure.

Lemma scan_img_events P urls img : Forall P (scan_img urls img).1.
Proof.
  rewrite scan_img_eq. destruct (get_attribute img "src"); constructor.
Qed.

Lemma scan_styled_events P urls elem : Forall P (scan_styled urls elem).1.
Proof.
  rewrite scan_styled_eq. destruct (get_attribute elem "style"); constructor.
Qed.

(** The loop makes loop events only. *)
Lemma scan_events_loop v urls :
  Forall (λ ev, loop_event ev = true) (scan v urls).1.
Proof.
  unfold scan, sleep.
  repeat (first [ by apply events_call | by apply events_emit
                | apply scan_img_events | apply scan_styled_events
                | apply events_for_each | apply events_bind | intros ? ]).
Qed.

Lemma bottom_check_events v :
  Forall (λ ev, loop_event ev = true) (bottom_check v).1.
Proof.
  unfold bottom_check, sleep.
  repeat (first [ by apply events_call | by apply events_emit
                | apply events_bind | intros ? ]).
  destruct (at_bottom _ _ _); [|apply events_ret].
  repeat (first [ by apply events_call | by apply events_emit
                | apply events_bind | intros ? ]).
Qed.

Lemma loop_body_events v st :
  Forall (λ ev, loop_event ev = true) (loop_body v st).1.
Proof.
  unfold loop_body. apply events_bind; [apply scan_events_loop|].
  intros urls. cbv zeta. unfold print.
  case_bool_decide; [|case_bool_decide];
    repeat (first [ by apply events_emit | apply bottom_check_events
                  | apply events_ret | apply events_bind | intros ? ]).
Qed.

Lemma scroll_loop_events fuel views i st m :
  scroll_loop fuel views i st = Some m →
  Forall (λ ev, loop_event ev = true) m.1.
Proof.
  revert i st m. induction fuel as [|fuel IH]; intros i st m; simpl.
  - case_bool_decide; [done|]. intros [= <-]. constructor.
  - case_bool_decide; [|intros [= <-]; constructor].
    pose proof (loop_body_events (views i) st) as Hb.
    destruct (loop_body (views i) st) as [tr [e|[[] st1]]]; simpl in *.
    + by intros [= <-].
    + destruct (scroll_loop fuel views (S i) st1) as [m'|] eqn:E; [|done].
      simpl. intros [= <-]. apply events_after; [done | by eapply IH].
    + by intros [= <-].
Qed.

(** Loop events are no [Quit], no [Start] and no [Item] line. *)
Lemma loop_events_quit tr :
  Forall (λ ev, loop_event ev = true) tr → filter is_quit tr = [].
Proof.
  induction 1 as [|ev tr Hev _ IH]; [done|].
  rewrite filter_cons, IH. by destruct ev.
Qed.

Lemma loop_events_printed tr :
  Forall (λ ev, loop_event ev = true) tr → printed_urls tr = [].
Proof.
  unfold printed_urls. induction 1 as [|ev tr Hev _ IH]; [done|].
  destruct ev as [| | | | |[]|]; try done.
Qed.

Lemma loop_events_start tr e :
  Forall (λ ev, loop_event ev = true) tr → Start e ∉ tr.
Proof.
  intros H Hin. rewrite Forall_forall in H. by apply H in Hin.
Qed.

End EventFacts.

(** ** The run around the loop *)

Module RunFacts.

Import PyStr Driver Script Page MFacts ScanFacts BodyFacts LoopFacts EventFacts.

Lemma for_each_print {A} (g : A → line) (l : list A) :
  for_each (λ _ x, print (g x)) l tt = ((λ x, Print (g x)) <$> l, inr tt).
Proof.
  induction l as [|x l IH]; simpl; [done|].
  unfold print in *. rewrite bind_emit. cbv beta. by rewrite IH.
Qed.

Lemma report_eq urls :
  report urls
  = ([Print Banner; Print (Total (size urls)); Print Banner]
       ++ ((λ iu, Print (Item iu.1 iu.2))
             <$> zip (seq 1 (length (merge_sort String.le (elements urls))))
                     (merge_sort String.le (elements urls))),
     inr (elements urls)).
Proof.
  unfold report, print. cbv zeta. rewrite !bind_emit.
  rewrite (for_each_print (λ iu : nat * string, Item iu.1 iu.2)).
  unfold ret. repeat step. simpl. by rewrite (right_id_L [] (++)).
Qed.

Lemma printed_items (l : list string) n :
  printed_urls ((λ iu, Print (Item iu.1 iu.2)) <$> zip (seq n (length l)) l)
  = l.
Proof.
  revert n. induction l as [|u l IH]; intros n; [done|].
  simpl. unfold printed_urls in *. simpl. by rewrite IH.
Qed.

Lemma printed_app tr1 tr2 :
  printed_urls (tr1 ++ tr2) = printed_urls tr1 ++ printed_urls tr2.
Proof. apply omap_app. Qed.

(** The listing printed is the sorted set. *)
Lemma printed_report urls :
  printed_urls (report urls).1 = merge_sort String.le (elements urls).
Proof. rewrite report_eq. simpl. apply (printed_items _ 1). Qed.

Lemma report_quit urls : filter is_quit (report urls).1 = [].
Proof.
  rewrite report_eq. simpl.
  induction (zip _ _) as [|iu l IH]; [done|]. simpl. by rewrite filter_cons.
Qed.

Lemma open_page_eq d :
  open_page d
  = match get d target_url with
    | Returns _ => (opening_events, inr tt)
    | Raises msg =>
        ([Print (Loading target_url); Get target_url], inl (Error msg))
    end.
Proof.
  unfold open_page, print, sleep.
  destruct (get d target_url) as [[]|msg]; by repeat step.
Qed.

(** The loop raises nothing but [Exception]s. *)
Lemma scroll_loop_no_exit fuel views i st tr code :
  scroll_loop fuel views i st ≠ Some (tr, inl (SystemExit code)).
Proof.
  revert i st tr. induction fuel as [|fuel IH]; intros i st tr; simpl.
  - by case_bool_decide.
  - case_bool_decide; [|done].
    pose proof (loop_body_no_exit (views i) st) as Hb.
    destruct (loop_body (views i) st) as [tr1 [e|[[] st1]]]; simpl.
    + intros [= -> ->]. by eapply Hb.
    + destruct (scroll_loop fuel views (S i) st1) as [[tr2 r]|] eqn:E;
        [|done].
      simpl. intros [= _ ->]. by eapply IH.
    + done.
Qed.

Local Arguments report : simpl never.

(** The ways the [try] body ends. *)
Lemma try_block_cases fuel d block :
  try_block fuel d = Some block →
  (∃ msg, get d target_url = Raises msg
          ∧ block = ([Print (Loading target_url); Get target_url],
                     inl (Error msg)))
  ∨ (∃ tr msg, get d target_url = Returns tt
          ∧ scroll_loop fuel (views d) 0 initial = Some (tr, inl (Error msg))
          ∧ block = (opening_events ++ tr, inl (Error msg)))
  ∨ (∃ tr m final, get d target_url = Returns tt
          ∧ scroll_loop fuel (views d) 0 initial = Some (tr, inr (m, final))
          ∧ block = (opening_events ++ tr ++ (report (image_urls final)).1,
                     inr (elements (image_urls final)))).
Proof.
  unfold try_block. rewrite open_page_eq.
  destruct (get d target_url) as [[]|msg]; cbv zeta; intros H; simpl in H.
  2:{ injection H as <-. left. by exists msg. }
  destruct (scroll_loop fuel (views d) 0 initial) as [[tr r]|] eqn:E; [|done].
  simpl in H. injection H as <-. right. destruct r as [[msg|code]|[m final]].
  - left. by exists tr, msg.
  - by apply scroll_loop_no_exit in E.
  - right. exists tr, m, final. split; [done|]. split; [done|].
    rewrite bind_pair. cbv beta. simpl snd. by rewrite report_eq.
Qed.

(** The events of the [try] body: no [Quit] and no [Start]; the [Item]
    lines are the sorted list when it returns one. *)
Lemma try_block_trace fuel d block :
  try_block fuel d = Some block →
  filter is_quit block.1 = []
  ∧ (∀ e, Start e ∉ block.1)
  ∧ printed_urls block.1
    = match block.2 with
      | inl _ => []
      | inr l => merge_sort String.le l
      end.
Proof.
  intros H. destruct (try_block_cases _ _ _ H) as
    [(msg & _ & ->) | [(tr0 & msg & _ & Hl & ->) | (tr0 & m & final & _ & Hl & ->)]];
    cbn [fst snd].
  - split; [done|]. split; [|done]. intros e He. set_solver.
  - apply scroll_loop_events in Hl. simpl in Hl. split; [|split].
    + rewrite filter_app, (loop_events_quit _ Hl). done.
    + intros e [He|He]%elem_of_app; [set_solver|].
      by apply loop_events_start in He.
    + rewrite printed_app, (loop_events_printed _ Hl). done.
  - apply scroll_loop_events in Hl. simpl in Hl. split; [|split].
    + rewrite !filter_app, (loop_events_quit _ Hl), report_quit. done.
    + intros e [He|[He|He]%elem_of_app]%elem_of_app; [set_solver| |].
      * by apply loop_events_start in He.
      * rewrite report_eq in He. cbn [fst] in He.
        apply elem_of_app in He as [He|He]; [set_solver|].
        by apply list_elem_of_fmap in He as (iu & ? & _).
    + rewrite !printed_app, (loop_events_printed _ Hl), printed_report. done.
Qed.

(** The ways the session ends: the list of the [try] body, or the empty
    list after an [Exception]; the [finally] block runs in both. *)
Lemma scrape_session_cases fuel d run :
  scrape_session fuel d = Some run →
  (∃ tr l, try_block fuel d = Some (tr, inr l)
           ∧ run = (tr ++ closing_events, inr l))
  ∨ (∃ tr msg, try_block fuel d = Some (tr, inl (Error msg))
           ∧ run = (tr ++ [Print (ErrorOccurred msg); Print Traceback]
                       ++ closing_events, inr [])).
Proof.
  unfold scrape_session.
  destruct (try_block fuel d) as [block|] eqn:E; [|done].
  simpl. intros [= <-].
  destruct (try_block_cases _ _ _ E) as
    [(msg & _ & ->) | [(tr & msg & _ & _ & ->) | (tr & m & final & _ & _ & ->)]].
  - right. eexists _, msg. split; [done|].
    done.
  - right. eexists _, msg. split; [done|].
    unfold try_finally, try_except. simpl. by rewrite <- !(assoc_L (++)).
  - left. eexists _, _. split; [done|]. done.
Qed.

(** The ways the driver is acquired. *)
Lemma acquire_cases w :
  (∃ d, chrome w = Returns d
        ∧ acquire w = ([Print Initializing; Start Chrome], inr d))
  ∨ (∃ msg d, chrome w = Raises msg ∧ firefox w = Returns d
        ∧ acquire w = ([Print Initializing; Start Chrome;
                        Print ChromeNotFound; Start Firefox], inr d))
  ∨ (∃ msg msg', chrome w = Raises msg ∧ firefox w = Raises msg'
        ∧ acquire w = ([Print Initializing; Start Chrome;
                        Print ChromeNotFound; Start Firefox;
                        Print (NoDriver msg'); Print InstallHint],
                       inl (SystemExit 1))).
Proof.
  unfold acquire.
  destruct (chrome w) as [d|msg]; [left; by exists d|].
  destruct (firefox w) as [d|msg']; right; [left|right].
  - by exists msg, d.
  - by exists msg, msg'.
Qed.

(** What [acquire] prints and starts has no [Quit] and no [Item] line. *)
Lemma acquire_quiet w :
  filter is_quit (acquire w).1 = [] ∧ printed_urls (acquire w).1 = [].
Proof.
  destruct (acquire_cases w) as
    [(d & _ & ->) | [(msg & d & _ & _ & ->) | (msg & msg' & _ & _ & ->)]];
    done.
Qed.

(** The ways the function ends: [sys.exit(1)] without a driver, else as
    the session ends. *)
Lemma scrape_cases fuel w run :
  scrape_avif_images fuel w = Some run →
  (started w = None ∧ run = ((acquire w).1, inl (SystemExit 1)))
  ∨ (∃ d srun, started w = Some d ∧ scrape_session fuel d = Some srun
        ∧ run = ((acquire w).1 ++ srun.1, srun.2)).
Proof.
  unfold scrape_avif_images, started. cbv zeta.
  destruct (acquire_cases w) as
    [(d & -> & ->) | [(msg & d & -> & -> & ->) | (msg & msg' & -> & -> & ->)]];
    simpl.
  - destruct (scrape_session fuel d) as [srun|] eqn:E; [|done].
    intros [= <-]. right. by exists d, srun.
  - destruct (scrape_session fuel d) as [srun|] eqn:E; [|done].
    intros [= <-]. right. by exists d, srun.
  - intros [= <-]. by left.
Qed.

Lemma scrape_started fuel w d :
  started w = Some d →
  scrape_avif_images fuel w
  = after_events (acquire w).1 <$> scrape_session fuel d.
Proof.
  unfold scrape_avif_images, started. cbv zeta.
  destruct (acquire_cases w) as
    [(d' & -> & ->) | [(msg & d' & -> & -> & ->) | (msg & msg' & -> & -> & ->)]];
    simpl; by intros [= ->].
Qed.

(** The three ways a run ends. *)
Lemma run_cases fuel w run :
  scrape_avif_images fuel w = Some run →
  (started w = None ∧ run = ((acquire w).1, inl (SystemExit 1)))
  ∨ (∃ d tr l, started w = Some d ∧ try_block fuel d = Some (tr, inr l)
        ∧ run = ((acquire w).1 ++ tr ++ closing_events, inr l))
  ∨ (∃ d tr msg, started w = Some d
        ∧ try_block fuel d = Some (tr, inl (Error msg))
        ∧ run = ((acquire w).1
                   ++ tr ++ [Print (ErrorOccurred msg); Print Traceback]
                   ++ closing_events, inr [])).
Proof.
  intros [?|(d & srun & Hd & Hs & ->)]%scrape_cases; [by left|]. right.
  destruct (scrape_session_cases _ _ _ Hs) as
    [(tr & l & Hb & ->) | (tr & msg & Hb & ->)]; [left|right].
  - by exists d, tr, l.
  - by exists d, tr, msg.
Qed.

(** The set of a loop that ends is what the views of its iterations show. *)
Lemma loop_invariant (P : gset string → Prop) fuel views i st tr m final :
  (∀ v urls, P urls → P (shown v ∪ urls)) →
  P (image_urls st) →
  scroll_loop fuel views i st = Some (tr, inr (m, final)) →
  P (image_urls final).
Proof.
  intros HP. revert i st tr. induction fuel as [|fuel IH]; intros i st tr; simpl.
  - case_bool_decide as Hguard; [done|]. by intros ? [= _ _ ->].
  - case_bool_decide as Hguard; [|by intros ? [= _ _ ->]].
    destruct (loop_body (views i) st) as [tr1 [e|[[] st1]]] eqn:E; simpl;
      try done.
    + destruct (scroll_loop fuel views (S i) st1) as [[tr2 r]|] eqn:E2;
        [|done].
      simpl. intros Hst [= _ ->]. eapply IH; [|done].
      rewrite (loop_body_grows _ _ _ _ _ E). by apply HP.
    + intros Hst [= _ _ ->]. rewrite (loop_body_grows _ _ _ _ _ E).
      by apply HP.
Qed.

Lemma state_after_invariant (P : gset string → Prop) views n i st st' :
  (∀ v urls, P urls → P (shown v ∪ urls)) →
  P (image_urls st) →
  state_after views n i st = Some st' →
  P (image_urls st').
Proof.
  intros HP. revert i st. induction n as [|n IH]; intros i st Hst; simpl.
  - by intros [= <-].
  - case_bool_decide as Hguard; [|done].
    destruct (loop_body (views i) st) as [tr [e|[[] st1]]] eqn:E; simpl;
      try done.
    apply IH. rewrite (loop_body_grows _ _ _ _ _ E). by apply HP.
Qed.

(** What the views of the iterations that ran show is in the final set. *)
Lemma scroll_loop_collects fuel views i st tr m final j :
  scroll_loop fuel views i st = Some (tr, inr (m, final)) →
  i ≤ j < m → shown (views j) ⊆ image_urls final.
Proof.
  revert i st tr. induction fuel as [|fuel IH]; intros i st tr; simpl.
  - case_bool_decide as Hguard; [done|]. intros [= _ <- _]. lia.
  - case_bool_decide as Hguard; [|intros [= _ <- _]; lia].
    destruct (loop_body (views i) st) as [tr1 [e|[[] st1]]] eqn:E; simpl;
      try done.
    + destruct (scroll_loop fuel views (S i) st1) as [[tr2 r]|] eqn:E2;
        [|done].
      simpl. intros [= _ ->] Hj. destruct (decide (j = i)) as [->|Hne].
      * apply scroll_loop_grows in E2. apply loop_body_grows in E.
        set_solver.
      * eapply IH; [done | lia].
    + intros [= _ <- <-] Hj. assert (j = i) as -> by lia.
      apply loop_body_grows in E. set_solver.
Qed.

Lemma try_block_loaded fuel d :
  get d target_url = Returns tt →
  try_block fuel d
  = (λ run, after_events opening_events
              (bind run (λ r, report (image_urls r.2))))
      <$> scroll_loop fuel (views d) 0 initial.
Proof. intros H. unfold try_block. by rewrite open_page_eq, H. Qed.

Lemma try_block_unloaded fuel d msg :
  get d target_url = Raises msg →
  try_block fuel d
  = Some ([Print (Loading target_url); Get target_url], inl (Error msg)).
Proof. intros H. unfold try_block. by rewrite open_page_eq, H. Qed.

Lemma session_returns fuel d tr l :
  try_block fuel d = Some (tr, inr l) →
  scrape_session fuel d = Some (tr ++ closing_events, inr l).
Proof. unfold scrape_session. by intros ->. Qed.

Lemma session_recovers fuel d tr msg :
  try_block fuel d = Some (tr, inl (Error msg)) →
  scrape_session fuel d
  = Some (tr ++ [Print (ErrorOccurred msg); Print Traceback]
             ++ closing_events, inr []).
Proof.
  unfold scrape_session. intros ->. simpl.
  unfold try_finally, try_except. simpl. by rewrite <- !(assoc_L (++)).
Qed.

End RunFacts.

(** * The claims *)

Import PyStr Driver Script Page Examples.
Import PyStrFacts ReFacts MFacts ScanFacts BodyFacts LoopFacts EventFacts RunFacts.

(** ** C1: the iteration cap *)

Lemma fresh_url_length n : String.length (fresh_url n) = n + 5.
Proof. induction n as [|n IH]; simpl; [done | by rewrite IH]. Qed.

Lemma fresh_url_marker n : has_marker (fresh_url n) = true.
Proof.
  unfold has_marker. apply andb_true_iff. split; [by destruct n|].
  induction n as [|n IH]; [done|]. by apply contains_cons.
Qed.

Lemma shown_growing i : shown (growing i) = {[fresh_url i]}.
Proof.
  unfold shown, shown_by_img, shown_by_style, growing. simpl.
  unfold img_urls. simpl. rewrite fresh_url_marker. simpl. set_solver.
Qed.

(** On the growing page every iteration finds a new URL and resets the
    counter: from any iteration on, no amount of fuel ends the loop. *)
Lemma growing_from fuel i st :
  scroll_attempts st = 0 →
  last_count st = size (image_urls st) →
  (∀ u, u ∈ image_urls st → String.length u < i + 5) →
  scroll_loop fuel growing i st = None.
Proof.
  revert i st. induction fuel as [|fuel IH]; intros i st Ha Hc Hlen.
  - simpl. rewrite bool_decide_true; [done|].
    rewrite Ha. unfold max_scroll_attempts. lia.
  - destruct (loop_body_calm (growing i) st eq_refl) as (tr & c & st' & Hb).
    assert (fresh_url i ∉ image_urls st) as Hnew.
    { intros Hin%Hlen. rewrite fresh_url_length in Hin. lia. }
    assert (size (shown (growing i) ∪ image_urls st) = S (size (image_urls st)))
      as Hsize.
    { rewrite shown_growing, size_union by set_solver.
      by rewrite size_singleton. }
    pose proof (loop_body_inr _ _ _ _ _ Hb) as [_ Hcases]. cbv zeta in Hcases.
    rewrite Hsize in Hcases.
    destruct Hcases as
      [(_ & -> & -> & _) | [(Hno & _) | (Hno & _)]]; [|lia|lia].
    rewrite (scroll_loop_continue _ _ _ _ _ _ ltac:(rewrite Ha; unfold max_scroll_attempts; lia) Hb).
    rewrite IH; [done | done | done |].
    simpl. intros u. rewrite shown_growing.
    intros [->%elem_of_singleton|Hu%Hlen]%elem_of_union; [|lia].
    rewrite fresh_url_length. lia.
Qed.

(** The cap itself is never what ends the loop: at the head of the loop
    the counter is below the threshold, far from the cap. *)
Lemma cap_never_reached views n st :
  state_after views n 0 initial = Some st →
  scroll_attempts st < no_new_images_threshold
  ∧ no_new_images_threshold < max_scroll_attempts.
Proof.
  intros H. split; [|unfold no_new_images_threshold, max_scroll_attempts; lia].
  by apply (state_after_at_head _ _ _ _ _ at_head_initial H).
Qed.

(** C1, at the failing input.  On a page that shows one new [.avif] image
    at every scroll the loop does not end within 100 iterations, nor
    within any number: the counter compared with the cap is reset at every
    growth. *)
Theorem growing_page_never_halts fuel :
  scroll_loop fuel growing 0 initial = None.
Proof.
  apply growing_from; [done | done |]. by intros u ?%not_elem_of_empty.
Qed.

(** ** C2: the set only grows *)

(** C2, as the code has it.  The set after the scan of an element, and
    after a pass, contains the set before it, so no URL is ever removed;
    and in a run whose [try] body returns
    (no call on the session raised), the set at the head of every
    iteration is contained in the list the run returns. *)
Theorem accumulation_monotone (d : session) :
  (∀ urls elem tr urls',
      scan_img urls elem = (tr, inr urls')
      ∨ scan_styled urls elem = (tr, inr urls') →
      urls ⊆ urls')
  ∧ (∀ v st tr c st',
      loop_body v st = (tr, inr (c, st')) → image_urls st ⊆ image_urls st')
  ∧ (∀ n st st',
      state_after (views d) n 0 initial = Some st →
      state_after (views d) (S n) 0 initial = Some st' →
      image_urls st ⊆ image_urls st')
  ∧ (∀ fuel tr l,
      try_block fuel d = Some (tr, inr l) →
      scrape_session fuel d = Some (tr ++ closing_events, inr l)
      ∧ ∀ n st u,
          state_after (views d) n 0 initial = Some st →
          u ∈ image_urls st → u ∈ l).
Proof.
  split_and!.
  - intros urls elem tr urls'. rewrite scan_img_eq, scan_styled_eq.
    destruct (get_attribute elem "src"), (get_attribute elem "style");
      intros [[=]|[=]]; set_solver.
  - intros v st tr c st' H. apply loop_body_grows in H. set_solver.
  - intros n st st' Hn. rewrite <- Nat.add_1_r, state_after_add, Hn.
    intros H. exact (state_after_grows _ 1 _ _ _ H).
  - intros fuel tr l Hb. split; [by apply session_returns|].
    intros n st u Hst Hu.
    destruct (try_block_cases _ _ _ Hb) as
      [(? & _ & [=]) | [(? & ? & _ & _ & [=])
                       | (tr0 & m & final & _ & Hl & [= _ ->])]].
    apply elem_of_elements.
    by apply (state_after_below_final _ _ _ _ _ _ _ Hl Hst).
Qed.

Lemma accumulation_monotone_witness :
  ∃ tr,
    scrape_session 5 scenario_session
    = Some (tr ++ closing_events, inr ["c.avif"; "a.avif"; "b.avif"])
    ∧ ∀ n st u,
        state_after scenario n 0 initial = Some st →
        u ∈ image_urls st → u ∈ ["c.avif"; "a.avif"; "b.avif"].
Proof.
  eexists.
  refine (proj2 (proj2 (proj2 (accumulation_monotone scenario_session)))
            5 _ _ _).
  vm_compute. reflexivity.
Defined.

(** C2 as stated fails when a pass raises: the set held [a.avif] after
    the first pass, and the run returns the empty list. *)
Lemma accumulation_lost_on_error :
  ¬ (∀ fuel (d : session) tr l n st u,
        scrape_session fuel d = Some (tr, inr l) →
        state_after (views d) n 0 initial = Some st →
        u ∈ image_urls st → u ∈ l).
Proof.
  intros H.
  assert (∃ tr, scrape_session 5 interrupted_session = Some (tr, inr []))
    as [tr E] by (eexists; vm_compute; reflexivity).
  specialize (H 5 interrupted_session tr [] 1 (grown {["a.avif"]}) "a.avif" E).
  apply elem_of_nil in H; [done | by vm_compute | set_solver].
Qed.

(** ** C3: a run that raises *)

(** C3.  With a driver [d] started: when the [try] body raises an
    exception, the function returns the empty list, whatever had been
    collected, and [quit] is called exactly once, as the last action.  The
    body raises when the navigation raises, and when a call of a scan
    raises in an iteration the loop reaches. *)
Theorem exception_returns_empty fuel (w : world) (d : session) :
  started w = Some d →
  (∀ tr msg,
      try_block fuel d = Some (tr, inl (Error msg)) →
      ∃ tr', scrape_avif_images fuel w = Some (tr', inr [])
             ∧ length (filter is_quit tr') = 1
             ∧ last tr' = Some Quit)
  ∧ (∀ msg,
      get d target_url = Raises msg →
      ∃ tr, try_block fuel d = Some (tr, inl (Error msg)))
  ∧ (∀ n st,
      get d target_url = Returns tt →
      state_after (views d) n 0 initial = Some st →
      scannable (views d n) = false →
      n < fuel →
      ∃ tr msg, try_block fuel d = Some (tr, inl (Error msg))).
Proof.
  intros Hd. split_and!.
  - intros tr msg Hb. rewrite (scrape_started _ _ _ Hd).
    rewrite (session_recovers _ _ _ _ Hb). eexists. split; [done|].
    pose proof (try_block_trace _ _ _ Hb) as (Hq & _ & _).
    cbn [fst snd after_events] in *.
    split.
    + rewrite !filter_app, (proj1 (acquire_quiet w)), Hq. done.
    + change closing_events with ([Print Closing] ++ [Quit]).
      rewrite !(assoc_L (++)). apply last_snoc.
  - intros msg Hg. rewrite (try_block_unloaded _ _ _ Hg). eauto.
  - intros n st Hg Hst Hv Hn. rewrite (try_block_loaded _ _ Hg).
    destruct (loop_body_unscannable _ st Hv) as (tr1 & msg & Hbody).
    pose proof (state_after_at_head _ _ _ _ _ at_head_initial Hst) as [_ Ha].
    pose proof (scroll_loop_after _ _ _ _ _ (fuel - n) Hst) as E.
    replace (n + (fuel - n)) with fuel in E by lia.
    destruct (fuel - n) as [|f] eqn:Ef; [lia|].
    assert (scroll_attempts st < max_scroll_attempts) as Hguard
      by (unfold max_scroll_attempts, no_new_images_threshold in *; lia).
    rewrite (scroll_loop_raise f (views d) (0 + n) _ _ _ Hguard Hbody) in E.
    destruct (scroll_loop fuel (views d) 0 initial) as [[tr r]|]; [|done].
    simpl in E. injection E as ->. simpl. eauto.
Qed.

Lemma exception_returns_empty_witness :
  ∃ tr', scrape_avif_images 5 (firefox_only unreachable_session)
         = Some (tr', inr [])
         ∧ length (filter is_quit tr') = 1
         ∧ last tr' = Some Quit.
Proof.
  apply (proj1 (exception_returns_empty
                  5 (firefox_only unreachable_session) unreachable_session
                  eq_refl)
           [Print (Loading target_url); Get target_url] "timeout").
  reflexivity.
Defined.

(** ** C4: stopping when nothing new comes *)

(** From the head of an iteration on, when every view is calm and shows
    nothing new, the loop runs the iterations that bring the counter to
    the threshold, and then stops. *)
Lemma stall_run views k i st :
  last_count st = size (image_urls st) →
  scroll_attempts st + k = no_new_images_threshold →
  0 < k →
  (∀ j, i ≤ j → calm (views j) = true ∧ shown (views j) ⊆ image_urls st) →
  ∃ tr final,
    scroll_loop k views i st = Some (tr, inr (i + k, final))
    ∧ image_urls final = image_urls st.
Proof.
  revert i st. induction k as [|k IH]; intros i st Hc Ha Hk Hviews; [lia|].
  destruct (Hviews i ltac:(lia)) as [Hcalm Hsub].
  destruct (loop_body_calm _ st Hcalm) as (tr & c & st' & Hb).
  assert (scroll_attempts st < max_scroll_attempts) as Hguard
    by (unfold max_scroll_attempts, no_new_images_threshold in *; lia).
  assert (shown (views i) ∪ image_urls st = image_urls st) as Hsame
    by set_solver.
  pose proof (loop_body_inr _ _ _ _ _ Hb) as [_ Hcases]. cbv zeta in Hcases.
  rewrite Hsame in Hcases.
  destruct Hcases as
    [(Hgrew & _) | [(_ & Hstop & -> & -> & _) | (_ & Hgo & -> & -> & _)]];
    [lia| |].
  - rewrite (scroll_loop_break _ _ _ _ _ _ Hguard Hb).
    assert (k = 0) as -> by lia. rewrite Nat.add_1_r. eauto.
  - rewrite (scroll_loop_continue _ _ _ _ _ _ Hguard Hb).
    destruct (IH (S i) (stalled st (image_urls st))) as (tr2 & final & -> & Hf);
      simpl; [done | lia | lia | |].
    + intros j Hj. apply Hviews. lia.
    + simpl. rewrite <- Nat.add_succ_comm. eauto.
Qed.

(** C4.  Let the loop reach the head of iteration K+1 (K iterations ran
    and the loop goes on), and let every view from then on be calm and
    show nothing that is not already in the set.  Then the loop stops,
    without an exception, with the set it had, and no later than at
    iteration K + 3: at iteration K + 3 when the K-th iteration brought
    something new (the counter is 0 then), and earlier by the value of the
    counter otherwise.  The counter goes up by one in an iteration that
    leaves the size of the set unchanged, goes back to 0 when the set
    grows, and the loop leaves exactly when it reaches 3. *)
Theorem no_growth_stopping (views : nat → view) (K : nat) (st : state) :
  (state_after views K 0 initial = Some st →
   (∀ i, K ≤ i → calm (views i) = true ∧ shown (views i) ⊆ image_urls st) →
   ∃ tr final,
     scroll_loop (K + 3) views 0 initial
     = Some (tr, inr (K + 3 - scroll_attempts st, final))
     ∧ image_urls final = image_urls st
     ∧ (scroll_attempts st = 0 →
        scroll_loop (K + 3) views 0 initial = Some (tr, inr (K + 3, final)))
     ∧ ∀ fuel r,
         scroll_loop fuel views 0 initial = Some r →
         r = (tr, inr (K + 3 - scroll_attempts st, final)))
  ∧ (∀ v tr c st',
      at_head st →
      loop_body v st = (tr, inr (c, st')) →
      (size (image_urls st) < size (image_urls st') →
       scroll_attempts st' = 0 ∧ c = Continue)
      ∧ (size (image_urls st') = size (image_urls st) →
         scroll_attempts st' = scroll_attempts st + 1
         ∧ (c = Break ↔ scroll_attempts st' = no_new_images_threshold))).
Proof.
  split.
  - intros Hst Hviews.
    pose proof (state_after_at_head _ _ _ _ _ at_head_initial Hst) as [Hc Ha].
    destruct (stall_run views (3 - scroll_attempts st) K st) as
      (tr2 & final & Hrun & Hf);
      [done | unfold no_new_images_threshold in *; lia
      | unfold no_new_images_threshold in *; lia | done |].
    pose proof (scroll_loop_after _ _ _ _ _ (3 - scroll_attempts st) Hst) as E.
    change (0 + K) with K in E. rewrite Hrun in E. simpl in E.
    destruct (scroll_loop (K + (3 - scroll_attempts st)) views 0 initial)
      as [[tr r]|] eqn:Hall; [|done].
    simpl in E. injection E as ->.
    unfold no_new_images_threshold in Ha.
    replace (K + (3 - scroll_attempts st)) with (K + 3 - scroll_attempts st)
      in * by lia.
    assert (scroll_loop (K + 3) views 0 initial
            = Some (tr, inr (K + 3 - scroll_attempts st, final))) as Hend
      by (apply (scroll_loop_fuel _ _ _ _ _ _ Hall); lia).
    exists tr, final. split_and!; [done | done | |].
    + intros H0. rewrite Hend, H0. by rewrite Nat.sub_0_r.
    + intros fuel r Hr.
      pose proof (scroll_loop_fuel _ (fuel + (K + 3)) _ _ _ _ Hr ltac:(lia)) as H1.
      pose proof (scroll_loop_fuel _ (fuel + (K + 3)) _ _ _ _ Hend ltac:(lia)) as H2.
      congruence.
  - intros v tr c st' [Hc Ha] Hb.
    pose proof (loop_body_inr _ _ _ _ _ Hb) as [_ Hcases]. cbv zeta in Hcases.
    assert (size (image_urls st) ≤ size (shown v ∪ image_urls st))
      by (apply subseteq_size; set_solver).
    unfold no_new_images_threshold in *.
    destruct Hcases as
      [(Hg & -> & -> & _) | [(Hg & Hs & -> & -> & _) | (Hg & Hs & -> & -> & _)]];
      simpl; (split; [intros ?|intros ?; split; [|split]]);
      try done; try lia.
Qed.

Lemma no_growth_stopping_witness :
  ∃ tr final,
    scroll_loop (2 + 3) scenario 0 initial
    = Some (tr, inr (2 + 3 - scroll_attempts
                               (grown {["a.avif"; "b.avif"; "c.avif"]}),
                     final))
    ∧ image_urls final
      = image_urls (grown {["a.avif"; "b.avif"; "c.avif"]})
    ∧ (scroll_attempts (grown {["a.avif"; "b.avif"; "c.avif"]}) = 0 →
       scroll_loop (2 + 3) scenario 0 initial
       = Some (tr, inr (2 + 3, final)))
    ∧ ∀ fuel r,
        scroll_loop fuel scenario 0 initial = Some r →
        r = (tr, inr (2 + 3 - scroll_attempts
                                (grown {["a.avif"; "b.avif"; "c.avif"]}),
                      final)).
Proof.
  apply (proj1 (no_growth_stopping
                  scenario 2 (grown {["a.avif"; "b.avif"; "c.avif"]}))).
  - by vm_compute.
  - intros i Hi. destruct i as [|[|i]]; [lia | lia |].
    split; [reflexivity|]. by vm_compute.
Defined.

(** ** C5: the extractor on the example, and on texts without the marker *)

(** C5.  On the style text [background-image: url(...)] with the quoted
    URL [https://x/y.avif?q=1] the extractor yields exactly that URL, and
    the style scan adds exactly it; on every style text that does not
    contain [.avif] the pattern finds nothing and the style scan adds
    nothing. *)
Theorem extractor_correct :
  style_urls style_example = ["https://x/y.avif?q=1"]
  ∧ scan_styled ∅ (styled_with style_example) = ret {["https://x/y.avif?q=1"]}
  ∧ ∀ style,
      contains marker style = false →
      style_urls style = []
      ∧ ∀ urls, scan_styled urls (styled_with style) = ret urls.
Proof.
  split; [by vm_compute|]. split.
  - by vm_compute.
  - intros style Hs. split; [by apply findall_no_marker|].
    intros urls. unfold scan_styled, has_marker. simpl. rewrite bind_ret.
    by rewrite Hs, andb_false_r.
Qed.

Lemma extractor_correct_witness :
  style_urls "color: red; background: url(x.png)" = [].
Proof.
  apply (proj2 (proj2 extractor_correct)). reflexivity.
Defined.

(** ** C6: each URL once *)

Lemma absent_filter (l : list string) (u : string) :
  u ∉ l → filter (λ x, x = u) l = [].
Proof.
  induction l as [|x l IH]; [done|].
  intros [Hx Hl]%not_elem_of_cons.
  rewrite filter_cons_False by (by intros ->). by apply IH.
Qed.

Lemma once_in_NoDup (l : list string) (u : string) :
  NoDup l → u ∈ l → length (filter (λ x, x = u) l) = 1.
Proof.
  induction 1 as [|x l Hx Hl IH]; [by intros ?%elem_of_nil|].
  intros [->|Hu]%elem_of_cons.
  - rewrite filter_cons_True by done. simpl.
    by rewrite (absent_filter _ _ Hx).
  - rewrite filter_cons_False by (by intros ->). by apply IH.
Qed.

(** C6, as the code has it.  In a run whose [try] body returns (no call on
    the session raised), the returned list has no duplicates, and a URL
    that the [img] scan or the style scan found, in any of the passes
    that ran, occurs in it exactly once. *)
Theorem each_url_once fuel (d : session) tr l :
  try_block fuel d = Some (tr, inr l) →
  scrape_session fuel d = Some (tr ++ closing_events, inr l)
  ∧ NoDup l
  ∧ ∃ tr0 m final,
      scroll_loop fuel (views d) 0 initial = Some (tr0, inr (m, final))
      ∧ ∀ i u,
          i < m →
          u ∈ shown_by_img (views d i) ∨ u ∈ shown_by_style (views d i) →
          length (filter (λ x, x = u) l) = 1.
Proof.
  intros Hb. split; [by apply session_returns|].
  destruct (try_block_cases _ _ _ Hb) as
    [(? & _ & [=]) | [(? & ? & _ & _ & [=])
                     | (tr0 & m & final & _ & Hl & [= _ ->])]].
  split; [apply NoDup_elements|]. exists tr0, m, final. split; [done|].
  intros i u Hi Hu. apply once_in_NoDup; [apply NoDup_elements|].
  apply elem_of_elements.
  apply (scroll_loop_collects _ _ _ _ _ _ _ i Hl); [lia|].
  unfold shown. rewrite elem_of_list_to_set, elem_of_app. done.
Qed.

Lemma each_url_once_witness :
  NoDup ["c.avif"; "a.avif"; "b.avif"].
Proof.
  refine (proj1 (proj2 (each_url_once 5 scenario_session _ _ _))).
  vm_compute. reflexivity.
Defined.

(** C6 as stated fails when a pass raises: [a.avif] was found by both
    scans in the first pass, and the run returns the empty list. *)
Lemma found_url_lost_on_error :
  ¬ (∀ fuel (d : session) tr l i st u,
        scrape_session fuel d = Some (tr, inr l) →
        state_after (views d) (S i) 0 initial = Some st →
        u ∈ shown_by_img (views d i) →
        u ∈ shown_by_style (views d i) →
        length (filter (λ x, x = u) l) = 1).
Proof.
  intros H.
  assert (∃ tr, scrape_session 5 interrupted_session = Some (tr, inr []))
    as [tr E] by (eexists; vm_compute; reflexivity).
  specialize (H 5 interrupted_session tr [] 0 (grown {["a.avif"]}) "a.avif" E).
  assert (0 = 1) as Hne; [|done].
  apply H; [by vm_compute | |]; vm_compute; by left.
Qed.

(** ** C7: the engines and the exit status *)

Lemma main_inv fuel w tr code :
  main fuel w = Some (tr, code) →
  ∃ run, scrape_avif_images fuel w = Some run
         ∧ tr = run.1 ∧ code = exit_status run.
Proof.
  unfold main. destruct (scrape_avif_images fuel w) as [run|]; [|done].
  simpl. intros [= <- <-]. by exists run.
Qed.

(** A process that ends after a driver started has status 0; Chrome is
    in its trace, and Firefox exactly when Chrome failed. *)
Lemma exit_status_cases fuel (w : world) tr code :
  main fuel w = Some (tr, code) →
  (code = 1%Z ↔ returns (chrome w) = false ∧ returns (firefox w) = false)
  ∧ (code ≠ 1%Z → code = 0%Z)
  ∧ Start Chrome ∈ tr
  ∧ (Start Firefox ∈ tr ↔ returns (chrome w) = false).
Proof.
  intros (run & Hrun & -> & ->)%main_inv.
  pose proof (run_cases _ _ _ Hrun) as Hcases. unfold started in Hcases.
  destruct (acquire_cases w) as
      [(d' & Hc & Ha) | [(m1 & d' & Hc & Hf & Ha) | (m1 & m2 & Hc & Hf & Ha)]];
    rewrite Hc, ?Hf, Ha in Hcases; rewrite Hc, ?Hf;
    cbn [returns fst snd] in *;
    destruct Hcases as
      [[Hd ->] | [(d & trb & l & Hd & Hb & ->) | (d & trb & msg & Hd & Hb & ->)]];
    try done; cbn [fst snd exit_status];
    try (assert (Start Firefox ∉ trb) as Hns
           by apply (try_block_trace _ _ _ Hb));
    unfold closing_events;
    (split; [split; [done | by intros []]|]);
    (split; [done|]); (split; [set_solver|]);
    first [ by split; [intros _ | intros _; set_solver]
          | split; [|done]; intros Hin; exfalso;
            repeat (apply elem_of_app in Hin as [Hin|Hin]);
            repeat (apply elem_of_cons in Hin as [?|Hin]; [done|]);
            first [ done | by apply elem_of_nil in Hin ] ].
Qed.

(** C7.  Chrome is started first, Firefox only when Chrome fails, and the
    script works with the first that starts.  When neither starts, the
    process exits with status 1, whatever the fuel.  When one starts, the
    process exits with status 0 as soon as the page fails to load or the
    loop ends, with or without URLs.  A process that ends has status 1
    exactly when neither engine started, and status 0 otherwise. *)
Theorem engine_fallback_and_exit_status fuel (w : world) :
  (returns (chrome w) = false → returns (firefox w) = false →
   ∃ tr, main fuel w = Some (tr, 1%Z))
  ∧ (∀ d, started w = Some d →
          scrape_avif_images fuel w
          = after_events (acquire w).1 <$> scrape_session fuel d)
  ∧ (∀ d, started w = Some d →
          (∃ msg, get d target_url = Raises msg)
          ∨ is_Some (scroll_loop fuel (views d) 0 initial) →
          ∃ tr, main fuel w = Some (tr, 0%Z))
  ∧ (∀ tr code,
      main fuel w = Some (tr, code) →
      (code = 1%Z ↔ returns (chrome w) = false ∧ returns (firefox w) = false)
      ∧ (code ≠ 1%Z → code = 0%Z)
      ∧ Start Chrome ∈ tr
      ∧ (Start Firefox ∈ tr ↔ returns (chrome w) = false)).
Proof.
  split_and!.
  - intros Hc Hf. unfold main, scrape_avif_images. cbv zeta.
    destruct (acquire_cases w) as
      [(d & Hc' & _) | [(msg & d & _ & Hf' & _) | (msg & msg' & _ & _ & ->)]].
    + by rewrite Hc' in Hc.
    + by rewrite Hf' in Hf.
    + simpl. eauto.
  - intros d. apply scrape_started.
  - intros d Hd Hends.
    assert (is_Some (main fuel w)) as [[tr code] Hmain].
    { unfold main. rewrite (scrape_started _ _ _ Hd). unfold scrape_session.
      rewrite !fmap_is_Some.
      destruct Hends as [[msg Hg] | Hloop].
      - by rewrite (try_block_unloaded _ _ _ Hg).
      - destruct (get d target_url) as [[]|msg] eqn:Hg.
        + by rewrite (try_block_loaded _ _ Hg), fmap_is_Some.
        + by rewrite (try_block_unloaded _ _ _ Hg). }
    exists tr. rewrite Hmain. do 2 f_equal.
    destruct (exit_status_cases _ _ _ _ Hmain) as ([Hone _] & Hzero & _).
    apply Hzero. intros [Hc Hf]%Hone. unfold started in Hd.
    destruct (chrome w); [done|]. by destruct (firefox w).
  - apply exit_status_cases.
Qed.

Lemma engine_fallback_and_exit_status_witness :
  ∃ tr, main 0 no_engine = Some (tr, 1%Z).
Proof.
  apply (proj1 (engine_fallback_and_exit_status 0 no_engine)); reflexivity.
Defined.

(** ** C8: the check for the bottom of the page *)

(** C8, as the code has it.  In an iteration after which the loop goes on,
    whether the set grew or not, the script reads the scroll position, the
    page height and the window height, once each, after the scan; when the
    position plus the window height reaches the page height minus 10, it
    then waits 1, scrolls to the bottom and waits 2, and otherwise does
    nothing more.  An iteration that ends the loop at the no-growth test
    makes no such check: the [break] comes first. *)
Theorem bottom_check_when_continuing v st tr st' :
  (loop_body v st = (tr, inr (Continue, st')) →
   ∃ tr0 y h w,
     page_y_offset v = Returns y
     ∧ scroll_height v = Returns h
     ∧ inner_height v = Returns w
     ∧ (tr0 = scan_events
        ∨ tr0 = scan_events ++ [Print (FoundSoFar (size (image_urls st')))])
     ∧ tr = tr0 ++ measure_events
               ++ (if bool_decide (h - 10 ≤ y + w)%Z
                   then extra_scroll_events else []))
  ∧ (loop_body v st = (tr, inr (Break, st')) →
     tr = scan_events ++ [Print (Stopping no_new_images_threshold)]).
Proof.
  split; intros H; apply loop_body_inr in H as [_ H]; cbv zeta in H.
  - assert (∀ tr', bottom_check v = (tr', inr tt) →
              ∃ y h w, page_y_offset v = Returns y
                       ∧ scroll_height v = Returns h
                       ∧ inner_height v = Returns w
                       ∧ tr' = measure_events
                                 ++ (if bool_decide (h - 10 ≤ y + w)%Z
                                     then extra_scroll_events else []))
      as Hcheck.
    { intros tr' Hb. destruct (bottom_check_cases v) as
        [(y & h & w & Hy & Hh & Hw & _ & E) | [_ (? & ? & E)]];
        rewrite E in Hb; [|done].
      injection Hb as <-. by exists y, h, w. }
    destruct H as
      [(_ & _ & -> & tr' & Hb & ->)
      | [(_ & _ & [=] & _) | (_ & _ & _ & -> & tr' & Hb & ->)]];
      destruct (Hcheck _ Hb) as (y & h & w & Hy & Hh & Hw & ->).
    + exists (scan_events ++ [Print (FoundSoFar (size (shown v ∪ image_urls st)))]),
        y, h, w.
      do 3 (split; [done|]). split; [by right|].
      by rewrite <- (assoc_L (++)).
    + exists scan_events, y, h, w. do 3 (split; [done|]). split; [by left|done].
  - by destruct H as
      [(_ & [=] & _) | [(_ & _ & _ & _ & ->) | (_ & _ & [=] & _)]].
Qed.

Lemma bottom_check_when_continuing_witness :
  ∃ tr0 y h w,
    page_y_offset empty_at_bottom = Returns y
    ∧ scroll_height empty_at_bottom = Returns h
    ∧ inner_height empty_at_bottom = Returns w
    ∧ (tr0 = scan_events
       ∨ tr0 = scan_events
               ++ [Print (FoundSoFar (size (image_urls (stalled initial ∅))))])
    ∧ scan_events ++ measure_events ++ extra_scroll_events
      = tr0 ++ measure_events
            ++ (if bool_decide (h - 10 ≤ y + w)%Z
                then extra_scroll_events else []).
Proof.
  apply (proj1 (bottom_check_when_continuing
                  empty_at_bottom initial
                  (scan_events ++ measure_events ++ extra_scroll_events)
                  (stalled initial ∅))).
  reflexivity.
Defined.

(** C8 as stated fails in the iteration that ends the loop: on an empty
    page with the window at the bottom, the third iteration stops at the
    no-growth test and never reads the scroll position. *)
Lemma no_bottom_check_when_stopping :
  ¬ (∀ (views : nat → view) n st tr c st',
        state_after views n 0 initial = Some st →
        loop_body (views n) st = (tr, inr (c, st')) →
        ExecuteScript PageYOffset ∈ tr).
Proof.
  intros H.
  specialize (H (λ _, empty_at_bottom) 2
                (stalled (stalled initial ∅) ∅)
                (scan_events ++ [Print (Stopping no_new_images_threshold)])
                Break
                (stalled (stalled (stalled initial ∅) ∅) ∅)
                eq_refl eq_refl).
  set_solver.
Qed.

(** ** C9: elements without the attribute *)

(** C9.  An [img] element without a [src] attribute and a styled element
    without a [style] attribute are passed over: the scan of the element
    returns the set unchanged, without raising, and a scan of a list of
    elements gives the same result with and without such an element. *)
Theorem absent_attribute_skipped (elem : element) :
  (get_attribute elem "src" = Returns None →
   ∀ urls,
     scan_img urls elem = ret urls
     ∧ ∀ l1 l2, for_each scan_img (l1 ++ elem :: l2) urls
                = for_each scan_img (l1 ++ l2) urls)
  ∧ (get_attribute elem "style" = Returns None →
     ∀ urls,
       scan_styled urls elem = ret urls
       ∧ ∀ l1 l2, for_each scan_styled (l1 ++ elem :: l2) urls
                  = for_each scan_styled (l1 ++ l2) urls).
Proof.
  split; intros Hnone.
  - assert (∀ urls, scan_img urls elem = ret urls) as Hskip.
    { intros urls. unfold scan_img. rewrite Hnone. simpl. by rewrite bind_ret. }
    intros urls. split; [done|]. intros l1 l2.
    rewrite !for_each_app. apply bind_ext. intros urls'. simpl.
    by rewrite Hskip, bind_ret.
  - assert (∀ urls, scan_styled urls elem = ret urls) as Hskip.
    { intros urls. unfold scan_styled. rewrite Hnone. simpl.
      by rewrite bind_ret. }
    intros urls. split; [done|]. intros l1 l2.
    rewrite !for_each_app. apply bind_ext. intros urls'. simpl.
    by rewrite Hskip, bind_ret.
Qed.

Lemma absent_attribute_skipped_witness :
  scan_img {["a.avif"]} bare = ret {["a.avif"]}
  ∧ for_each scan_styled ([styled_with style_example] ++ bare :: []) ∅
    = for_each scan_styled ([styled_with style_example] ++ []) ∅.
Proof.
  split.
  - apply (proj1 (absent_attribute_skipped bare)). reflexivity.
  - apply (proj2 (absent_attribute_skipped bare)). reflexivity.
Defined.

(** ** C10: every collected URL has the marker *)

Lemma has_marker_true s : has_marker s = true → contains marker s = true.
Proof. unfold has_marker. by intros [_ H]%andb_true_iff. Qed.

Lemma img_urls_marked img u : u ∈ img_urls img → contains marker u = true.
Proof.
  unfold img_urls. destruct (get_attribute img "src") as [[s|]|];
    [|by intros ?%elem_of_nil..].
  destruct (has_marker s) eqn:E; [|by intros ?%elem_of_nil].
  intros ->%list_elem_of_singleton. by apply has_marker_true.
Qed.

Lemma styled_urls_marked elem u :
  u ∈ styled_urls elem → contains marker u = true.
Proof.
  unfold styled_urls. destruct (get_attribute elem "style") as [[s|]|];
    [|by intros ?%elem_of_nil..].
  destruct (has_marker s); [|by intros ?%elem_of_nil].
  unfold style_urls. by intros [H _]%findall_marker.
Qed.

Lemma shown_marked v : marked (shown v).
Proof.
  intros u. unfold shown, shown_by_img, shown_by_style.
  rewrite elem_of_list_to_set, elem_of_app, !list_elem_of_bind.
  intros [(img & Hu & _) | (elem & Hu & _)].
  - by eapply img_urls_marked.
  - by eapply styled_urls_marked.
Qed.

Lemma marked_union v urls : marked urls → marked (shown v ∪ urls).
Proof.
  intros H u [Hu|Hu]%elem_of_union; [by apply (shown_marked v) | by apply H].
Qed.

(** C10.  Both scans only add strings that contain [.avif]; so every URL
    of the set, at the head of every iteration, contains it, and so does
    every URL a run returns and every URL it prints in its listing. *)
Theorem urls_have_marker :
  (∀ urls img tr urls' u,
      scan_img urls img = (tr, inr urls') → u ∈ urls' →
      u ∈ urls ∨ contains marker u = true)
  ∧ (∀ urls elem tr urls' u,
      scan_styled urls elem = (tr, inr urls') → u ∈ urls' →
      u ∈ urls ∨ contains marker u = true)
  ∧ (∀ views n st,
      state_after views n 0 initial = Some st → marked (image_urls st))
  ∧ (∀ fuel w tr l,
      scrape_avif_images fuel w = Some (tr, inr l) →
      (∀ u, u ∈ l → contains marker u = true)
      ∧ (∀ u, u ∈ printed_urls tr → contains marker u = true)).
Proof.
  split_and!.
  - intros urls img tr urls' u. rewrite scan_img_eq.
    destruct (get_attribute img "src"); [|done].
    intros [= _ <-] [Hu%elem_of_list_to_set|Hu]%elem_of_union; [right|by left].
    by eapply img_urls_marked.
  - intros urls elem tr urls' u. rewrite scan_styled_eq.
    destruct (get_attribute elem "style"); [|done].
    intros [= _ <-] [Hu%elem_of_list_to_set|Hu]%elem_of_union; [right|by left].
    by eapply styled_urls_marked.
  - intros views n st. apply (state_after_invariant marked).
    + apply marked_union.
    + by intros u ?%not_elem_of_empty.
  - intros fuel w tr l Hrun.
    destruct (run_cases _ _ _ Hrun) as
      [[_ [=]] | [(d & trb & l' & _ & Hb & E) | (d & trb & msg & _ & Hb & E)]].
    + assert (l = l') as <- by congruence.
      assert (tr = (acquire w).1 ++ trb ++ closing_events) as -> by congruence.
      pose proof (try_block_trace _ _ _ Hb) as (_ & _ & Hp). simpl in Hp.
      assert (∀ u, u ∈ l → contains marker u = true) as Hl.
      { destruct (try_block_cases _ _ _ Hb) as
          [(? & _ & [=]) | [(? & ? & _ & _ & [=])
                           | (tr0 & m & final & _ & Hl & [= _ ->])]].
        intros u Hu%elem_of_elements. revert u Hu.
        apply (loop_invariant marked _ _ _ _ _ _ _ (marked_union) ) in Hl;
          [done|]. by intros u ?%not_elem_of_empty. }
      split; [done|]. intros u.
      rewrite !printed_app, (proj2 (acquire_quiet w)), Hp. simpl.
      rewrite (right_id_L [] (++)), merge_sort_Permutation. apply Hl.
    + assert (l = []) as -> by congruence.
      assert (tr = (acquire w).1
                     ++ trb ++ [Print (ErrorOccurred msg); Print Traceback]
                     ++ closing_events) as -> by congruence.
      pose proof (try_block_trace _ _ _ Hb) as (_ & _ & Hp). simpl in Hp.
      split; [by intros u ?%elem_of_nil|]. intros u.
      rewrite !printed_app, (proj2 (acquire_quiet w)), Hp. simpl.
      by intros ?%elem_of_nil.
Qed.

Lemma urls_have_marker_witness :
  marked (image_urls (grown {["a.avif"; "b.avif"]})).
Proof.
  apply (proj1 (proj2 (proj2 urls_have_marker)) scenario 1).
  reflexivity.
Defined.

(** * Further properties of the script *)

Import Accounting.

(** ** X1: the returned list is what the passes showed *)

(** The loop counts its iterations upwards. *)
Lemma scroll_loop_count fuel views i st tr m final :
  scroll_loop fuel views i st = Some (tr, inr (m, final)) → i ≤ m.
Proof.
  revert i st tr. induction fuel as [|fuel IH]; intros i st tr; simpl.
  - case_bool_decide as Hguard; [done|]. by intros [= _ <- _].
  - case_bool_decide as Hguard; [|by intros [= _ <- _]].
    destruct (loop_body (views i) st) as [tr1 [e|[[] st1]]]; simpl; try done.
    + destruct (scroll_loop fuel views (S i) st1) as [[tr2 r]|] eqn:E2;
        [|done].
      simpl. intros [= _ ->]. apply IH in E2. lia.
    + intros [= _ <- _]. lia.
Qed.

(** Whatever is in the final set was in the set at the start or shown by
    the view of an iteration that ran. *)
Lemma scroll_loop_sound fuel views i st tr m final u :
  scroll_loop fuel views i st = Some (tr, inr (m, final)) →
  u ∈ image_urls final →
  u ∈ image_urls st ∨ ∃ j, i ≤ j < m ∧ u ∈ shown (views j).
Proof.
  revert i st tr. induction fuel as [|fuel IH]; intros i st tr; simpl.
  - case_bool_decide as Hguard; [done|]. intros [= _ _ <-]. by left.
  - case_bool_decide as Hguard; [|intros [= _ _ <-]; by left].
    destruct (loop_body (views i) st) as [tr1 [e|[[] st1]]] eqn:E; simpl;
      try done.
    + destruct (scroll_loop fuel views (S i) st1) as [[tr2 r]|] eqn:E2;
        [|done].
      simpl. intros [= _ ->] Hu.
      pose proof (scroll_loop_count _ _ _ _ _ _ _ E2) as Hm.
      destruct (IH _ _ _ E2 Hu) as [Hst1 | (j & Hj & Hshown)].
      * rewrite (loop_body_grows _ _ _ _ _ E) in Hst1.
        apply elem_of_union in Hst1 as [Hs|Hs]; [right|by left].
        exists i. split; [lia|done].
      * right. exists j. split; [lia|done].
    + intros [= _ <- <-] Hu. rewrite (loop_body_grows _ _ _ _ _ E) in Hu.
      apply elem_of_union in Hu as [Hs|Hs]; [right|by left].
      exists i. split; [lia|done].
Qed.

(** X1.  When the [try] body returns, the list it returns holds exactly
    the URLs that the [img] scan or the style scan found in one of the
    passes that ran: nothing found is missing and nothing else is there. *)
Theorem returned_exactly_shown fuel (d : session) tr l :
  try_block fuel d = Some (tr, inr l) →
  ∃ tr0 m final,
    scroll_loop fuel (views d) 0 initial = Some (tr0, inr (m, final))
    ∧ ∀ u, u ∈ l ↔
           ∃ i, i < m ∧ (u ∈ shown_by_img (views d i)
                         ∨ u ∈ shown_by_style (views d i)).
Proof.
  intros Hb.
  destruct (try_block_cases _ _ _ Hb) as
    [(? & _ & [=]) | [(? & ? & _ & _ & [=])
                     | (tr0 & m & final & _ & Hl & [= _ ->])]].
  exists tr0, m, final. split; [done|]. intros u.
  rewrite elem_of_elements. split.
  - intros Hu. destruct (scroll_loop_sound _ _ _ _ _ _ _ _ Hl Hu) as
      [Hin | (j & Hj & Hs)]; [by apply not_elem_of_empty in Hin|].
    exists j. split; [lia|]. unfold shown in Hs.
    by rewrite elem_of_list_to_set, elem_of_app in Hs.
  - intros (i & Hi & Hu).
    apply (scroll_loop_collects _ _ _ _ _ _ _ i Hl); [lia|].
    unfold shown. by rewrite elem_of_list_to_set, elem_of_app.
Qed.

Lemma returned_exactly_shown_witness :
  ∃ tr0 m final,
    scroll_loop 5 (views scenario_session) 0 initial
    = Some (tr0, inr (m, final))
    ∧ ∀ u, u ∈ ["c.avif"; "a.avif"; "b.avif"] ↔
           ∃ i, i < m ∧ (u ∈ shown_by_img (views scenario_session i)
                         ∨ u ∈ shown_by_style (views scenario_session i)).
Proof.
  refine (returned_exactly_shown 5 scenario_session _ _ _).
  vm_compute. reflexivity.
Defined.

(** ** X2: how many iterations a run makes *)

(** From the head of an iteration on: the loop ends with the counter at
    the threshold, after at least as many iterations as the counter still
    needs, and with at most three for every URL of the set, and three. *)
Lemma loop_bounds fuel views i st tr m final :
  at_head st →
  i ≤ 3 * size (image_urls st) + scroll_attempts st →
  scroll_loop fuel views i st = Some (tr, inr (m, final)) →
  i + (3 - scroll_attempts st) ≤ m
  ∧ m ≤ 3 * size (image_urls final) + 3
  ∧ scroll_attempts final = no_new_images_threshold
  ∧ scans tr = m - i.
Proof.
  unfold no_new_images_threshold.
  revert i st tr. induction fuel as [|fuel IH]; intros i st tr [Hc Ha] Hi;
    unfold no_new_images_threshold in Ha; simpl.
  - rewrite bool_decide_true by (unfold max_scroll_attempts; lia). done.
  - rewrite bool_decide_true by (unfold max_scroll_attempts; lia).
    destruct (loop_body (views i) st) as [tr1 [e|[c st1]]] eqn:E; [done|].
    pose proof (loop_body_inr _ _ _ _ _ E) as [_ Hcases]. cbv zeta in Hcases.
    assert (size (image_urls st) ≤ size (shown (views i) ∪ image_urls st))
      as Hsize by (apply subseteq_size; set_solver).
    assert (∀ tr', bottom_check (views i) = (tr', inr tt) → scans tr' = 0)
      as Hcheck.
    { intros tr' Hb. destruct (bottom_check_cases (views i)) as
        [(y & h & w & _ & _ & _ & _ & Eb) | [_ (? & ? & Eb)]];
        rewrite Eb in Hb; [|done].
      injection Hb as <-. by destruct (at_bottom y w h). }
    destruct Hcases as
      [(Hg & -> & -> & tr' & Hb & ->)
      | [(Hg & Hs & -> & -> & ->) | (Hg & Hs & -> & -> & tr' & Hb & ->)]];
      simpl.
    + destruct (scroll_loop fuel views (S i) _) as [[tr2 r]|] eqn:E2; [|done].
      simpl. intros [= <- ->].
      apply IH in E2 as (H1 & H2 & H3 & H4);
        [|split; simpl; [done|unfold no_new_images_threshold; lia]|simpl; lia].
      simpl in H1. split_and!; [lia | done | done |].
      specialize (Hcheck _ Hb). unfold scans in *.
      rewrite !filter_cons. simpl.
      rewrite filter_app, length_app, Hcheck, H4. lia.
    + intros [= <- <- <-]. simpl. unfold no_new_images_threshold in Hs.
      split_and!; [lia | lia | lia |].
      replace (S i - i) with 1 by lia. done.
    + unfold no_new_images_threshold in Hs.
      destruct (scroll_loop fuel views (S i) _) as [[tr2 r]|] eqn:E2; [|done].
      simpl. intros [= <- ->].
      apply IH in E2 as (H1 & H2 & H3 & H4);
        [|split; simpl; [lia|unfold no_new_images_threshold; lia]|simpl; lia].
      simpl in H1. split_and!; [lia | done | done |].
      specialize (Hcheck _ Hb). unfold scans in *.
      rewrite !filter_cons. simpl.
      rewrite filter_app, length_app, Hcheck, H4. lia.
Qed.

(** X2.  A loop that ends without an exception made at least 3 iterations
    and at most 3 for every URL it collected, and 3 more; it scanned the
    page once in each, and it ended at the no-growth test, the counter at
    3 (never at the cap of 100). *)
Theorem iteration_bounds fuel views tr m final :
  scroll_loop fuel views 0 initial = Some (tr, inr (m, final)) →
  3 ≤ m ≤ 3 * (size (image_urls final) + 1)
  ∧ scans tr = m
  ∧ scroll_attempts final = no_new_images_threshold.
Proof.
  intros H. apply loop_bounds in H as (H1 & H2 & H3 & H4);
    [|apply at_head_initial|simpl; lia].
  simpl in H1. rewrite Nat.sub_0_r in H4. split_and!; [lia | lia | done | done].
Qed.

Lemma iteration_bounds_witness :
  ∃ final,
    3 ≤ 5 ≤ 3 * (size (image_urls final) + 1)
    ∧ scans (scan_events ++ [Print (FoundSoFar 2)] ++ measure_events
             ++ scan_events ++ [Print (FoundSoFar 3)] ++ measure_events
             ++ scan_events ++ measure_events
             ++ scan_events ++ measure_events
             ++ scan_events ++ [Print (Stopping 3)]) = 5
    ∧ scroll_attempts final = no_new_images_threshold.
Proof.
  eexists. refine (iteration_bounds 5 scenario _ 5 _ _).
  vm_compute. reflexivity.
Defined.

(** ** X3: the listing *)

Lemma totals_app tr1 tr2 : totals (tr1 ++ tr2) = totals tr1 ++ totals tr2.
Proof. apply omap_app. Qed.

Lemma item_numbers_app tr1 tr2 :
  item_numbers (tr1 ++ tr2) = item_numbers tr1 ++ item_numbers tr2.
Proof. apply omap_app. Qed.

Lemma progress_counts_app tr1 tr2 :
  progress_counts (tr1 ++ tr2) = progress_counts tr1 ++ progress_counts tr2.
Proof. apply omap_app. Qed.

(** The loop prints no total and no line of the listing. *)
Lemma loop_events_totals tr :
  Forall (λ ev, loop_event ev = true) tr →
  totals tr = [] ∧ item_numbers tr = [].
Proof.
  unfold totals, item_numbers.
  induction 1 as [|ev tr Hev _ [IH1 IH2]]; [done|].
  destruct ev as [| | | | |[]|]; try done.
Qed.

Lemma item_numbers_items (l : list string) n :
  item_numbers ((λ iu, Print (Item iu.1 iu.2)) <$> zip (seq n (length l)) l)
  = seq n (length l).
Proof.
  revert n. induction l as [|u l IH]; intros n; [done|].
  simpl. unfold item_numbers in *. simpl. by rewrite IH.
Qed.

Lemma totals_items (l : list (nat * string)) :
  totals ((λ iu, Print (Item iu.1 iu.2)) <$> l) = [].
Proof. induction l as [|iu l IH]; [done|]. by simpl. Qed.

(** What the [try] body prints when it returns. *)
Lemma try_block_listing fuel (d : session) tr l :
  try_block fuel d = Some (tr, inr l) →
  totals tr = [length l]
  ∧ item_numbers tr = seq 1 (length l)
  ∧ printed_urls tr = merge_sort String.le l.
Proof.
  intros Hb.
  pose proof (try_block_trace _ _ _ Hb) as (_ & _ & Hp). cbn [fst snd] in Hp.
  destruct (try_block_cases _ _ _ Hb) as
    [(? & _ & [=]) | [(? & ? & _ & _ & [=]) | (tr0 & m & final & _ & Hl & E)]].
  assert (l = elements (image_urls final)) as Hlist by congruence.
  assert (tr = opening_events ++ tr0 ++ (report (image_urls final)).1) as ->
    by congruence.
  apply scroll_loop_events in Hl. cbn [fst] in Hl.
  destruct (loop_events_totals _ Hl) as [Ht Hi].
  assert (length (merge_sort String.le l) = length l) as Hlen
    by (by rewrite merge_sort_Permutation).
  split_and!; [| |done].
  - rewrite !totals_app, Ht, report_eq. cbn [fst].
    rewrite totals_app, totals_items, Hlist. done.
  - rewrite !item_numbers_app, Hi, report_eq. cbn [fst].
    rewrite item_numbers_app, <- Hlist, item_numbers_items, Hlen. done.
Qed.

(** X3.  When the [try] body returns, the report prints the total once,
    and it is the length of the returned list; the lines of the listing
    are numbered 1, 2, ... up to it, their URLs are in lexicographic
    order, and they are the returned URLs, each once. *)
Theorem listing_sorted_and_complete fuel (d : session) tr l :
  try_block fuel d = Some (tr, inr l) →
  totals tr = [length l]
  ∧ item_numbers tr = seq 1 (length l)
  ∧ Sorted String.le (printed_urls tr)
  ∧ printed_urls tr ≡ₚ l
  ∧ NoDup (printed_urls tr).
Proof.
  intros Hb. destruct (try_block_listing _ _ _ _ Hb) as (Ht & Hi & Hp).
  split; [done|]. split; [done|]. rewrite Hp. split_and!.
  - apply Sorted_merge_sort. apply _.
  - apply merge_sort_Permutation.
  - rewrite merge_sort_Permutation.
    destruct (try_block_cases _ _ _ Hb) as
      [(? & _ & [=]) | [(? & ? & _ & _ & [=]) | (tr0 & m & final & _ & _ & E)]].
    assert (l = elements (image_urls final)) as -> by congruence.
    apply NoDup_elements.
Qed.

Lemma listing_sorted_and_complete_witness :
  ∃ tr,
    totals tr = [length ["c.avif"; "a.avif"; "b.avif"]]
    ∧ item_numbers tr = seq 1 (length ["c.avif"; "a.avif"; "b.avif"])
    ∧ Sorted String.le (printed_urls tr)
    ∧ printed_urls tr ≡ₚ ["c.avif"; "a.avif"; "b.avif"]
    ∧ NoDup (printed_urls tr).
Proof.
  eexists. refine (listing_sorted_and_complete 5 scenario_session _ _ _).
  vm_compute. reflexivity.
Defined.

(** ** X4: the progress lines *)

Lemma bottom_check_progress v tr :
  bottom_check v = (tr, inr tt) → progress_counts tr = [].
Proof.
  intros Hb. destruct (bottom_check_cases v) as
    [(y & h & w & _ & _ & _ & _ & Eb) | [_ (? & ? & Eb)]];
    rewrite Eb in Hb; [|done].
  injection Hb as <-. by destruct (at_bottom y w h).
Qed.

(** From the head of an iteration on: the counts printed go up strictly
    from the recorded count, and the last is the size of the final set. *)
Lemma loop_progress fuel views i st tr m final :
  last_count st = size (image_urls st) →
  scroll_loop fuel views i st = Some (tr, inr (m, final)) →
  Sorted lt (last_count st :: progress_counts tr)
  ∧ last (last_count st :: progress_counts tr)
    = Some (size (image_urls final)).
Proof.
  revert i st tr. induction fuel as [|fuel IH]; intros i st tr Hc; simpl.
  - case_bool_decide as Hguard; [done|]. intros [= <- _ <-].
    split; [by repeat constructor | by rewrite Hc].
  - case_bool_decide as Hguard;
      [|intros [= <- _ <-]; split; [by repeat constructor | by rewrite Hc]].
    destruct (loop_body (views i) st) as [tr1 [e|[c st1]]] eqn:E; [done|].
    pose proof (loop_body_inr _ _ _ _ _ E) as [_ Hcases]. cbv zeta in Hcases.
    assert (size (image_urls st) ≤ size (shown (views i) ∪ image_urls st))
      as Hsize by (apply subseteq_size; set_solver).
    destruct Hcases as
      [(Hg & -> & -> & tr' & Hb & ->)
      | [(Hg & Hs & -> & -> & ->) | (Hg & Hs & -> & -> & tr' & Hb & ->)]];
      cbn [snd].
    + destruct (scroll_loop fuel views (S i) _) as [[tr2 r]|] eqn:E2; [|done].
      simpl. intros [= <- ->]. apply IH in E2 as [H1 H2]; [|done].
      pose proof (bottom_check_progress _ _ Hb) as Hb'.
      unfold progress_counts in *. simpl in *. rewrite omap_app, Hb'. simpl.
      split; [|done]. constructor; [done|]. by constructor.
    + intros [= <- _ <-]. simpl. split; [by repeat constructor|]. f_equal. lia.
    + destruct (scroll_loop fuel views (S i) _) as [[tr2 r]|] eqn:E2; [|done].
      simpl. intros [= <- ->]. apply IH in E2 as [H1 H2]; [|simpl; lia].
      pose proof (bottom_check_progress _ _ Hb) as Hb'.
      unfold progress_counts in *. simpl in *. by rewrite omap_app, Hb'.
Qed.

(** X4.  When the [try] body returns, the counts of the progress lines go
    up strictly, none is 0, and the last one is the number of URLs
    returned (no progress line at all when nothing was found). *)
Theorem progress_lines_increase fuel (d : session) tr l :
  try_block fuel d = Some (tr, inr l) →
  Sorted lt (0 :: progress_counts tr)
  ∧ last (0 :: progress_counts tr) = Some (length l).
Proof.
  intros Hb.
  destruct (try_block_cases _ _ _ Hb) as
    [(? & _ & [=]) | [(? & ? & _ & _ & [=]) | (tr0 & m & final & _ & Hl & E)]].
  assert (l = elements (image_urls final)) as -> by congruence.
  assert (tr = opening_events ++ tr0 ++ (report (image_urls final)).1) as ->
    by congruence.
  apply loop_progress in Hl as [H1 H2]; [|done].
  assert (progress_counts (report (image_urls final)).1 = []) as Hr.
  { rewrite report_eq. cbn [fst]. rewrite progress_counts_app.
    induction (zip _ _) as [|iu z IHz]; [done|]. by simpl. }
  rewrite !progress_counts_app, Hr, (right_id_L [] (++)).
  change (progress_counts opening_events) with (@nil nat).
  by cbn [app].
Qed.

Lemma progress_lines_increase_witness :
  ∃ tr,
    Sorted lt (0 :: progress_counts tr)
    ∧ last (0 :: progress_counts tr)
      = Some (length ["c.avif"; "a.avif"; "b.avif"]).
Proof.
  eexists. refine (progress_lines_increase 5 scenario_session _ _ _).
  vm_compute. reflexivity.
Defined.

(** ** X5: the driver is quit on every path *)



(** ** X6: a page without matching images *)

(** X6.  With a driver, a page that loads, and views that are calm and
    show no URL with the marker: three iterations end the loop, the
    function returns the empty list, the total printed is 0, no line of
    the listing is printed, and the process exits with status 0.  Finding
    nothing is not an error. *)
Theorem nothing_found_is_no_error fuel (w : world) (d : session) :
  started w = Some d →
  get d target_url = Returns tt →
  (∀ i, calm (views d i) = true ∧ shown (views d i) = ∅) →
  3 ≤ fuel →
  ∃ tr0 final tr,
    scroll_loop fuel (views d) 0 initial = Some (tr0, inr (3, final))
    ∧ scrape_avif_images fuel w = Some (tr, inr [])
    ∧ main fuel w = Some (tr, 0%Z)
    ∧ totals tr = [0]
    ∧ printed_urls tr = [].
Proof.
  intros Hd Hg Hviews Hfuel.
  destruct (stall_run (views d) 3 0 initial) as (tr0 & final & Hrun & Hf);
    [done | done | lia | |].
  { intros j _. destruct (Hviews j) as [Hc ->]. split; [done|set_solver]. }
  apply scroll_loop_fuel with (fuel' := fuel) in Hrun; [|done].
  simpl in Hf.
  assert (∃ trb, try_block fuel d = Some (trb, inr [])) as [trb Hb].
  { rewrite (try_block_loaded _ _ Hg), Hrun. cbn [fmap option_fmap option_map].
    rewrite bind_pair. cbn [snd]. rewrite Hf, report_eq. eauto. }
  destruct (try_block_listing _ _ _ _ Hb) as (Ht & _ & Hp).
  exists tr0, final. eexists. split; [done|].
  unfold main.
  rewrite (scrape_started _ _ _ Hd), (session_returns _ _ _ _ Hb).
  cbn [fmap option_fmap option_map after_events fst snd exit_status].
  split; [done|]. split; [done|].
  pose proof (acquire_quiet w) as [_ Hpa].
  assert (totals (acquire w).1 = []) as Hta.
  { destruct (acquire_cases w) as
      [(d' & _ & ->) | [(m1 & d' & _ & _ & ->) | (m1 & m2 & _ & _ & ->)]];
      done. }
  cbn [fst]. rewrite !totals_app, !printed_app, Hta, Hpa, Ht, Hp. done.
Qed.

Lemma nothing_found_is_no_error_witness :
  ∃ tr0 final tr,
    scroll_loop 4 (λ _, empty_at_bottom) 0 initial
    = Some (tr0, inr (3, final))
    ∧ scrape_avif_images
        4 (firefox_only {| get _ := Returns tt; views _ := empty_at_bottom |})
      = Some (tr, inr [])
    ∧ main 4 (firefox_only {| get _ := Returns tt; views _ := empty_at_bottom |})
      = Some (tr, 0%Z)
    ∧ totals tr = [0]
    ∧ printed_urls tr = [].
Proof.
  apply (nothing_found_is_no_error
           4 (firefox_only {| get _ := Returns tt; views _ := empty_at_bottom |})
           {| get _ := Returns tt; views _ := empty_at_bottom |});
    [reflexivity | reflexivity | | lia].
  intros i. split; reflexivity.
Defined.

(** ** X7: the shape of an extracted URL *)

Module MatchFacts.

Import PyStr PyStrFacts Re ReFacts Accounting.

Lemma chars_app (a b : string) :
  list_ascii_of_string (a +:+ b)
  = list_ascii_of_string a ++ list_ascii_of_string b.
Proof. induction a as [|c a IH]; [done|]. simpl. by rewrite <- IH. Qed.

Lemma chars_inj (a b : string) :
  list_ascii_of_string a = list_ascii_of_string b → a = b.
Proof.
  intros H. rewrite <- (string_of_list_ascii_of_string a).
  rewrite <- (string_of_list_ascii_of_string b). by rewrite H.
Qed.

Lemma app_empty_r (a : string) : a +:+ "" = a.
Proof. induction a as [|x a IH]; [done | exact (f_equal (String x) IH)]. Qed.

Lemma quoteless_app (a b : string) :
  quoteless (a +:+ b) ↔ quoteless a ∧ quoteless b.
Proof. unfold quoteless. rewrite chars_app. apply Forall_app. Qed.

Lemma accepts_none c :
  accepts (NoneOf [dquote; squote]) c = true ↔ c ∉ [dquote; squote].
Proof.
  simpl. rewrite negb_true_iff, bool_decide_eq_false. done.
Qed.

Lemma accepts_one c :
  accepts (OneOf [dquote; squote]) c = true ↔ c ∈ [dquote; squote].
Proof. simpl. by rewrite bool_decide_eq_true. Qed.

(** What a repetition consumes is accepted, character by character. *)
Lemma star_consumed k s m :
  m ∈ star k s →
  Forall (λ c, accepts k c = true) (list_ascii_of_string m.1).
Proof.
  revert m. induction s as [|c s IH]; intros m; simpl.
  - intros ->%list_elem_of_singleton. constructor.
  - destruct (accepts k c) eqn:Hc.
    + intros [H | ->%list_elem_of_singleton]%elem_of_app; [|constructor].
      apply list_elem_of_fmap in H as (m' & -> & Hm'). simpl.
      constructor; [done | by apply IH].
    + intros ->%list_elem_of_singleton. constructor.
Qed.

Lemma plus_consumed k s m :
  m ∈ plus k s →
  m.1 ≠ "" ∧ Forall (λ c, accepts k c = true) (list_ascii_of_string m.1).
Proof.
  destruct s as [|c s]; simpl; [by intros ?%elem_of_nil|].
  destruct (accepts k c) eqn:Hc; [|by intros ?%elem_of_nil].
  intros (m' & -> & Hm')%list_elem_of_fmap. simpl. split; [done|].
  constructor; [done | by eapply star_consumed].
Qed.

Lemma once_consumed k s m :
  m ∈ once k s →
  ∃ c s', m = (String c "", s') ∧ accepts k c = true ∧ s = String c s'.
Proof.
  destruct s as [|c s]; simpl; [by intros ?%elem_of_nil|].
  destruct (accepts k c) eqn:Hc; [|by intros ?%elem_of_nil].
  intros ->%list_elem_of_singleton. by exists c, s.
Qed.

(** A sequence of one piece. *)
Lemma elem_of_cands_one p s m :
  m ∈ cands [p] s ↔ m ∈ piece_cands p s.
Proof.
  rewrite elem_of_cands_cons. split.
  - intros (x & y & Hx & ->%list_elem_of_singleton & ->).
    unfold extend. simpl. rewrite app_empty_r. by destruct x.
  - intros Hm. exists m, ("", m.2). split; [done|].
    split; [by apply list_elem_of_singleton|].
    unfold extend. simpl. rewrite app_empty_r. by destruct m.
Qed.

Lemma opt_quote_consumed s m :
  m ∈ piece_cands (OneOf [dquote; squote], Opt) s → quote_or_empty m.1.
Proof.
  unfold piece_cands. simpl.
  intros [H | ->%list_elem_of_singleton]%elem_of_app; [|by left].
  apply once_consumed in H as (c & s' & -> & Hc%accepts_one & _).
  right. simpl. set_solver.
Qed.

(** The three parts of the pattern, and what each consumes. *)
Lemma before_consumed s m :
  m ∈ cands (before url_avif) s →
  ∃ q, m.1 = "url(" +:+ q ∧ quote_or_empty q.
Proof.
  intros (m1 & m2 & H1 & H2 & ->)%elem_of_cands_app.
  apply cands_lits in H1. apply elem_of_cands_one, opt_quote_consumed in H2.
  exists m2.1. simpl. by rewrite H1.
Qed.

Lemma after_consumed s m :
  m ∈ cands (after url_avif) s →
  ∃ q, m.1 = q +:+ ")" ∧ quote_or_empty q.
Proof.
  change (after url_avif)
    with ([(OneOf [dquote; squote], Opt)] ++ [(Lit ")"%char, Once)]).
  intros (m1 & m2 & H1 & H2 & ->)%elem_of_cands_app.
  apply elem_of_cands_one, opt_quote_consumed in H1.
  apply elem_of_cands_one in H2. unfold piece_cands in H2. simpl in H2.
  apply once_consumed in H2 as (c & s' & -> & Hc & _).
  simpl in Hc. apply bool_decide_eq_true in Hc as ->.
  exists m1.1. done.
Qed.

Lemma quoteless_accepted (a : string) :
  Forall (λ c, accepts (NoneOf [dquote; squote]) c = true)
    (list_ascii_of_string a) ↔ quoteless a.
Proof.
  unfold quoteless. apply Forall_proper; [|done]. intros c. apply accepts_none.
Qed.

Lemma group1_consumed s m :
  m ∈ cands (group1 url_avif) s →
  ∃ a b, m.1 = a +:+ ".avif" +:+ b ∧ a ≠ "" ∧ quoteless a ∧ quoteless b.
Proof.
  intros (m1 & m' & H1 & H' & ->)%elem_of_cands_app.
  apply elem_of_cands_app in H' as (m2 & m3 & H2 & H3 & ->).
  apply cands_lits in H2.
  apply elem_of_cands_one in H1. apply elem_of_cands_one in H3.
  unfold piece_cands in H1, H3. simpl in H1, H3.
  apply plus_consumed in H1 as [Hne Ha%quoteless_accepted].
  apply star_consumed, quoteless_accepted in H3.
  exists m1.1, m3.1. simpl. by rewrite H2.
Qed.

(** The parts of a match at the start of the subject. *)
Lemma matches_here_parts p s g n :
  (g, n) ∈ matches_here p s →
  ∃ m0 m1 m2,
    m0 ∈ cands (before p) s ∧ m1 ∈ cands (group1 p) m0.2
    ∧ m2 ∈ cands (after p) m1.2
    ∧ g = m1.1
    ∧ n = String.length m0.1 + String.length m1.1 + String.length m2.1
    ∧ s = m0.1 +:+ m1.1 +:+ m2.1 +:+ m2.2.
Proof.
  unfold matches_here. intros (m0 & H & H0)%list_elem_of_bind.
  apply list_elem_of_bind in H as (m1 & H & H1).
  apply list_elem_of_bind in H as (m2 & H & H2).
  apply list_elem_of_singleton in H. injection H as -> ->.
  exists m0, m1, m2. split_and!; try done.
  rewrite <- (cands_split _ _ _ H2), <- (cands_split _ _ _ H1).
  by apply cands_split in H0.
Qed.

End MatchFacts.

Import MatchFacts.

(** X7.  Every URL the pattern extracts from a style text has at least one
    character before an occurrence of [.avif], contains no quote
    character, and stands in the text right after [url(] and at most one
    quote, followed by at most one quote and a closing parenthesis. *)
Theorem extracted_url_shape (style g : string) :
  g ∈ style_urls style →
  (∃ a b, g = a +:+ ".avif" +:+ b ∧ a ≠ "")
  ∧ quoteless g
  ∧ ∃ pre q q' post,
      style = pre +:+ "url(" +:+ q +:+ g +:+ q' +:+ ")" +:+ post
      ∧ quote_or_empty q ∧ quote_or_empty q'.
Proof.
  unfold style_urls, Re.findall. intros H.
  apply findall_from_match in H as (pre & t & n & -> & Ht).
  apply head_Some_elem_of, matches_here_parts in Ht as
    (m0 & m1 & m2 & H0 & H1 & H2 & -> & _ & ->).
  apply before_consumed in H0 as (q & E0 & Hq).
  apply group1_consumed in H1 as (a & b & E1 & Ha & Hqa & Hqb).
  apply after_consumed in H2 as (q' & E2 & Hq').
  split; [by exists a, b|]. split.
  - rewrite E1. apply quoteless_app. split; [done|].
    apply quoteless_app. split; [|done]. unfold quoteless. simpl.
    repeat (constructor;
            [by rewrite !elem_of_cons, elem_of_nil; intros [?|[?|?]]|]).
    constructor.
  - exists pre, q, q', m2.2. split; [|done].
    rewrite E0, E2. by rewrite !PyStrFacts.app_assoc.
Qed.

Lemma extracted_url_shape_witness :
  (∃ a b, "https://x/y.avif?q=1" = a +:+ ".avif" +:+ b ∧ a ≠ "")
  ∧ quoteless "https://x/y.avif?q=1"
  ∧ ∃ pre q q' post,
      style_example
      = pre +:+ "url(" +:+ q +:+ "https://x/y.avif?q=1" +:+ q' +:+ ")" +:+ post
      ∧ quote_or_empty q ∧ quote_or_empty q'.
Proof.
  apply (extracted_url_shape style_example "https://x/y.avif?q=1").
  vm_compute. left.
Defined.

(** ** X8: a [url(...)] reference is extracted as it is *)

Module RoundTrip.

Import PyStr PyStrFacts Re ReFacts Accounting MatchFacts.

(** A match starts with [url(]. *)
Lemma match_here_starts s g n :
  match_here url_avif s = Some (g, n) → ∃ x, s = "url(" +:+ x.
Proof.
  intros H%head_Some_elem_of.
  apply matches_here_parts in H as (m0 & m1 & m2 & H0 & _ & _ & _ & _ & ->).
  apply before_consumed in H0 as (q & -> & _).
  eexists. by rewrite !PyStrFacts.app_assoc.
Qed.

(** Without an opening parenthesis there is no match, here or later. *)
Lemma no_match_unopened s : unopened s → match_here url_avif s = None.
Proof.
  intros Hs. destruct (match_here url_avif s) as [[g n]|] eqn:E; [|done].
  apply match_here_starts in E as [x ->]. unfold unopened in Hs. simpl in Hs.
  by do 4 apply Forall_cons in Hs as [? Hs].
Qed.

Lemma findall_unopened s k : unopened s → findall_from url_avif k s = [].
Proof.
  revert k. induction s as [|c s IH]; intros k Hs.
  - by destruct k.
  - assert (unopened s) as Hs' by (by apply Forall_cons in Hs as [_ ?]).
    destruct k; simpl; [|by apply IH].
    rewrite (no_match_unopened _ Hs). by apply IH.
Qed.

(** The text before [url(], without an opening parenthesis, is passed. *)
Lemma findall_pass (pre x : string) :
  unopened pre →
  findall_from url_avif 0 (pre +:+ "url(" +:+ x)
  = findall_from url_avif 0 ("url(" +:+ x).
Proof.
  induction pre as [|c pre IH]; [done|]. intros Hpre.
  assert (unopened pre) as Hpre' by (by apply Forall_cons in Hpre as [_ ?]).
  change (String c pre +:+ "url(" +:+ x)
    with (String c (pre +:+ "url(" +:+ x)).
  cbn [findall_from].
  destruct (match_here url_avif (String c (pre +:+ "url(" +:+ x)))
    as [[g n]|] eqn:E; [|by apply IH].
  exfalso. apply match_here_starts in E as [y E].
  unfold unopened in Hpre. simpl in Hpre.
  destruct pre as [|c2 [|c3 [|c4 pre]]]; simpl in E; try by simplify_eq.
  injection E as -> -> -> -> _.
  by do 4 apply Forall_cons in Hpre as [? Hpre].
Qed.

(** Skipping a matched text resumes the search right after it. *)
Lemma findall_skip p (t post : string) :
  findall_from p (String.length t) (t +:+ post) = findall_from p 0 post.
Proof. induction t as [|c t IH]; [done|]. simpl. apply IH. Qed.

(** The matcher finds what is there: each piece consumes a text it
    accepts. *)
Lemma star_empty k s : ("", s) ∈ star k s.
Proof.
  destruct s as [|c s]; simpl; [by apply list_elem_of_singleton|].
  destruct (accepts k c); [apply elem_of_app; right|];
    by apply list_elem_of_singleton.
Qed.

Lemma star_intro k (a rest : string) :
  Forall (λ c, accepts k c = true) (list_ascii_of_string a) →
  (a, rest) ∈ star k (a +:+ rest).
Proof.
  induction a as [|c a IH]; [intros _; apply star_empty|].
  intros [Hc Ha]%Forall_cons.
  change (String c a +:+ rest) with (String c (a +:+ rest)). simpl.
  rewrite Hc. apply elem_of_app. left.
  apply list_elem_of_fmap. exists (a, rest). split; [done | by apply IH].
Qed.

Lemma plus_intro k (a rest : string) :
  a ≠ "" →
  Forall (λ c, accepts k c = true) (list_ascii_of_string a) →
  (a, rest) ∈ plus k (a +:+ rest).
Proof.
  destruct a as [|c a]; [done|]. intros _ [Hc Ha]%Forall_cons.
  change (String c a +:+ rest) with (String c (a +:+ rest)). simpl.
  rewrite Hc. apply list_elem_of_fmap. exists (a, rest).
  split; [done | by apply star_intro].
Qed.

Lemma lits_intro (w rest : string) : (w, rest) ∈ cands (lits w) (w +:+ rest).
Proof.
  induction w as [|c w IH]; [by apply list_elem_of_singleton|].
  change (lits (String c w)) with ((Lit c, Once) :: lits w).
  apply elem_of_cands_cons. exists (String c "", w +:+ rest), (w, rest).
  split; [|done]. unfold piece_cands. simpl.
  rewrite bool_decide_true by done. by apply list_elem_of_singleton.
Qed.

Lemma cands_app_intro ps1 ps2 s m1 m2 :
  m1 ∈ cands ps1 s → m2 ∈ cands ps2 m1.2 →
  extend m1.1 m2 ∈ cands (ps1 ++ ps2) s.
Proof.
  revert s m1. induction ps1 as [|p ps1 IH]; intros s m1.
  - intros ->%list_elem_of_singleton H2. by destruct m2.
  - intros (x & y & Hx & Hy & ->)%elem_of_cands_cons H2.
    change ((p :: ps1) ++ ps2) with (p :: (ps1 ++ ps2)).
    apply elem_of_cands_cons. exists x, (extend y.1 m2).
    split; [done|]. split; [by apply IH|].
    unfold extend. simpl. by rewrite PyStrFacts.app_assoc.
Qed.

Lemma opt_quote_intro (q rest : string) :
  quote_or_empty q →
  (q, rest) ∈ piece_cands (OneOf [dquote; squote], Opt) (q +:+ rest).
Proof.
  unfold piece_cands. simpl. intros [-> | [-> | ->]]; apply elem_of_app.
  - right. by apply list_elem_of_singleton.
  - left. simpl. by apply list_elem_of_singleton.
  - left. simpl. by apply list_elem_of_singleton.
Qed.

Lemma before_intro (q x : string) :
  quote_or_empty q →
  ("url(" +:+ q, x) ∈ cands (before url_avif) ("url(" +:+ q +:+ x).
Proof.
  intros Hq.
  apply (cands_app_intro (lits "url(") _ _ ("url(", q +:+ x) (q, x)).
  - apply lits_intro.
  - by apply elem_of_cands_one, opt_quote_intro.
Qed.

Lemma after_intro (q x : string) :
  quote_or_empty q →
  (q +:+ ")", x) ∈ cands (after url_avif) (q +:+ ")" +:+ x).
Proof.
  intros Hq.
  apply (cands_app_intro [(OneOf [dquote; squote], Opt)]
           [(Lit ")"%char, Once)] _ (q, ")" +:+ x) (")", x)).
  - by apply elem_of_cands_one, opt_quote_intro.
  - apply elem_of_cands_one. unfold piece_cands. simpl.
    by apply list_elem_of_singleton.
Qed.

Lemma group1_intro (a b x : string) :
  a ≠ "" → quoteless a → quoteless b →
  (a +:+ ".avif" +:+ b, x)
  ∈ cands (group1 url_avif) (a +:+ ".avif" +:+ b +:+ x).
Proof.
  intros Ha Hqa%quoteless_accepted Hqb%quoteless_accepted.
  apply (cands_app_intro [(NoneOf [dquote; squote], Plus)] _ _
           (a, ".avif" +:+ b +:+ x) (".avif" +:+ b, x)).
  - apply elem_of_cands_one. by apply plus_intro.
  - apply (cands_app_intro (lits ".avif") _ _ (".avif", b +:+ x) (b, x)).
    + apply lits_intro.
    + apply elem_of_cands_one. by apply star_intro.
Qed.

(** The reference is a match at its start. *)
Lemma reference_matches (q a b post : string) :
  quote_or_empty q → a ≠ "" → quoteless a → quoteless b →
  (a +:+ ".avif" +:+ b,
   String.length ("url(" +:+ q) + String.length (a +:+ ".avif" +:+ b)
   + String.length (q +:+ ")"))
  ∈ matches_here url_avif
      ("url(" +:+ q +:+ (a +:+ ".avif" +:+ b) +:+ q +:+ ")" +:+ post).
Proof.
  intros Hq Ha Hqa Hqb. unfold matches_here.
  apply list_elem_of_bind. eexists. split; [|by apply before_intro].
  apply list_elem_of_bind.
  exists (a +:+ ".avif" +:+ b, q +:+ ")" +:+ post). split.
  - apply list_elem_of_bind. exists (q +:+ ")", post). split.
    + by apply list_elem_of_singleton.
    + apply (after_intro q post Hq).
  - simpl. rewrite !PyStrFacts.app_assoc. by apply group1_intro.
Qed.

Lemma length_app_string (a b : string) :
  String.length (a +:+ b) = String.length a + String.length b.
Proof. induction a as [|c a IH]; [done|]. simpl. by rewrite <- IH. Qed.

Lemma head_unique {A} (l : list A) (a : A) :
  a ∈ l → (∀ x, x ∈ l → x = a) → head l = Some a.
Proof.
  destruct l as [|x l]; [by intros ?%elem_of_nil|].
  intros _ H. simpl. f_equal. apply H. left.
Qed.

(** A quote or nothing, then a text that starts without a quote: the two
    are told apart by the first character. *)
Lemma lead_unique (q q0 : string) (c c0 : ascii) (x y : list ascii) :
  quote_or_empty q → quote_or_empty q0 →
  c ∉ [dquote; squote] → c0 ∉ [dquote; squote] →
  list_ascii_of_string q ++ c :: x = list_ascii_of_string q0 ++ c0 :: y →
  q = q0 ∧ c :: x = c0 :: y.
Proof.
  intros [-> | [-> | ->]] [-> | [-> | ->]] Hc Hc0; simpl; intros E;
    try done; injection E as E1 E2; subst; try done; set_solver.
Qed.

(** A quote or nothing, then the closing parenthesis. *)
Lemma close_unique (q q2 : string) (x y : list ascii) :
  quote_or_empty q → quote_or_empty q2 →
  list_ascii_of_string q ++ ")"%char :: x
  = list_ascii_of_string q2 ++ ")"%char :: y →
  q = q2.
Proof.
  intros [-> | [-> | ->]] [-> | [-> | ->]]; simpl; intros E; try done;
    by injection E.
Qed.

(** On the reference every match at its start has the URL for its group,
    and ends with the reference. *)
Lemma reference_only (q u post g : string) (n : nat) :
  quote_or_empty q → quoteless u → unclosed u → u ≠ "" → unclosed post →
  (g, n) ∈ matches_here url_avif ("url(" +:+ q +:+ u +:+ q +:+ ")" +:+ post) →
  g = u
  ∧ n = String.length ("url(" +:+ q) + String.length u
        + String.length (q +:+ ")").
Proof.
  intros Hq Hqu Hcu Hu Hpost H.
  apply matches_here_parts in H as (m0 & m1 & m2 & H0 & H1 & H2 & -> & -> & E).
  apply before_consumed in H0 as (q0 & E0 & Hq0).
  apply group1_consumed in H1 as (a & b & E1 & Ha & Hqa & Hqb).
  apply after_consumed in H2 as (q2 & E2 & Hq2).
  assert (quoteless m1.1) as Hqg.
  { rewrite E1. apply quoteless_app. split; [done|].
    apply quoteless_app. split; [|done]. unfold quoteless. simpl.
    repeat (constructor;
            [by rewrite !elem_of_cons, elem_of_nil; intros [?|[?|?]]|]).
    constructor. }
  rewrite E0, E2 in E |- *. rewrite !PyStrFacts.app_assoc in E.
  apply (f_equal list_ascii_of_string) in E. rewrite !chars_app in E.
  simpl in E. injection E as E.
  destruct a as [|ca a]; [done|]. destruct u as [|cu u]; [done|].
  assert (ca ∉ [dquote; squote]) as Hca
    by (by apply Forall_cons in Hqa as [? _]).
  assert (cu ∉ [dquote; squote]) as Hcu0
    by (by apply Forall_cons in Hqu as [? _]).
  assert (list_ascii_of_string m1.1
          = ca :: list_ascii_of_string (a +:+ ".avif" +:+ b)) as Eg
    by (by rewrite E1).
  rewrite Eg in E. simpl in E.
  apply lead_unique in E as [<- E]; [|done..].
  change (cu :: list_ascii_of_string u
            ++ list_ascii_of_string q ++ ")"%char :: list_ascii_of_string post)
    with (list_ascii_of_string (String cu u)
            ++ list_ascii_of_string q ++ ")"%char :: list_ascii_of_string post)
    in E.
  change (ca :: ?t ++ ?r) with ((ca :: t) ++ r) in E. rewrite <- Eg in E.
  assert (list_ascii_of_string (String cu u) = list_ascii_of_string m1.1
          ∧ list_ascii_of_string q ++ ")"%char :: list_ascii_of_string post
            = list_ascii_of_string q2
                ++ ")"%char :: list_ascii_of_string m2.2) as [Egu Etail].
  { apply app_eq_inv in E as [(k & Ek & Ek2) | (k & Ek & Ek2)].
    - destruct k as [|c k]; [by rewrite (right_id_L [] (++)) in Ek|].
      exfalso.
      assert (c ∈ list_ascii_of_string (String cu u)) as Hin
        by (rewrite Ek; set_solver).
      unfold quoteless, unclosed in Hqu, Hcu.
      rewrite Forall_forall in Hqu, Hcu.
      specialize (Hqu _ Hin). specialize (Hcu _ Hin).
      destruct Hq2 as [-> | [-> | ->]]; simpl in Ek2; injection Ek2 as <- _;
        set_solver.
    - destruct k as [|c k]; [by rewrite (right_id_L [] (++)) in Ek|].
      exfalso.
      assert (c ∈ list_ascii_of_string m1.1) as Hin
        by (rewrite Ek; set_solver).
      unfold quoteless in Hqg. rewrite Forall_forall in Hqg.
      specialize (Hqg _ Hin).
      destruct Hq as [-> | [-> | ->]]; simpl in Ek2; injection Ek2 as <- Ek2;
        [|set_solver..].
      unfold unclosed in Hpost. rewrite Forall_forall in Hpost.
      apply (Hpost ")"%char); [|done]. rewrite Ek2. set_solver. }
  apply chars_inj in Egu. apply close_unique in Etail as <-; [|done..].
  by rewrite Egu.
Qed.

End RoundTrip.

(** ** X8: a URL written into a style is read back *)

Section RoundTripProperty.

Import PyStr PyStrFacts Re ReFacts MatchFacts RoundTrip.

(** X8. Round trip of line 69: a style that holds one reference
    [url(q u q)], where [q] is a double quote, a single quote or nothing and
    [u] is a URL with a non-empty text before [.avif], without quotes and
    without a closing parenthesis, gives back exactly [u], when the text
    before the reference has no opening parenthesis and the text after it
    no parenthesis at all. *)
Theorem url_round_trip (pre q u post : string) :
  quote_or_empty q → quoteless u → unclosed u →
  (∃ a b, u = a +:+ ".avif" +:+ b ∧ a ≠ "") →
  unopened pre → unopened post → unclosed post →
  style_urls (pre +:+ "url(" +:+ q +:+ u +:+ q +:+ ")" +:+ post) = [u].
Proof.
  intros Hq Hqu Hcu (a & b & Eu & Ha) Hpre Hpost Hpost'.
  assert (u ≠ "") as Hu by (rewrite Eu; by destruct a).
  assert (quoteless a ∧ quoteless b) as [Hqa Hqb].
  { rewrite Eu in Hqu. apply quoteless_app in Hqu as [? Hqu].
    by apply quoteless_app in Hqu as [_ ?]. }
  unfold style_urls, findall. rewrite findall_pass by done.
  set (n := String.length ("url(" +:+ q) + String.length u
            + String.length (q +:+ ")")).
  assert (match_here url_avif ("url(" +:+ q +:+ u +:+ q +:+ ")" +:+ post)
          = Some (u, n)) as Hm.
  { apply head_unique.
    - unfold n. rewrite Eu. by apply reference_matches.
    - intros [g k] Hg.
      by apply reference_only in Hg as [-> ->]. }
  change ("url(" +:+ q +:+ u +:+ q +:+ ")" +:+ post)
    with (String "u" ("rl(" +:+ q +:+ u +:+ q +:+ ")" +:+ post)) in Hm |- *.
  cbn [findall_from]. rewrite Hm. f_equal.
  assert (pred n = String.length ("rl(" +:+ q +:+ u +:+ q +:+ ")")) as ->.
  { unfold n. rewrite !length_app_string. simpl. lia. }
  replace ("rl(" +:+ q +:+ u +:+ q +:+ ")" +:+ post)
    with (("rl(" +:+ q +:+ u +:+ q +:+ ")") +:+ post)
    by (by rewrite !PyStrFacts.app_assoc).
  rewrite findall_skip. by apply findall_unopened.
Qed.

Lemma url_round_trip_witness :
  style_urls ("background-image: " +:+ "url(" +:+ String dquote ""
              +:+ "https://x/y.avif?q=1" +:+ String dquote "" +:+ ")" +:+ ";")
  = ["https://x/y.avif?q=1"].
Proof.
  apply (url_round_trip "background-image: " (String dquote "")
           "https://x/y.avif?q=1" ";").
  - right. by left.
  - unfold quoteless. simpl.
    repeat (constructor;
            [by rewrite !elem_of_cons, elem_of_nil; intros [?|[?|?]]|]).
    constructor.
  - unfold unclosed. simpl. repeat (constructor; [done|]). constructor.
  - by exists "https://x/y", "?q=1".
  - unfold unopened. simpl. repeat (constructor; [done|]). constructor.
  - unfold unopened. simpl. repeat (constructor; [done|]). constructor.
  - unfold unclosed. simpl. repeat (constructor; [done|]). constructor.
Defined.

End RoundTripProperty.

(** ** X9: the time slept *)

Section SleepProperty.

Import PyStr Driver Script Page Examples Accounting.
Import MFacts ScanFacts BodyFacts LoopFacts EventFacts RunFacts.

Lemma slept_app tr1 tr2 : slept (tr1 ++ tr2) = slept tr1 + slept tr2.
Proof.
  unfold slept. rewrite omap_app. apply sum_list_with_app.
Qed.

(** The check for the bottom sleeps 3 seconds, or not at all. *)
Lemma bottom_check_slept v tr :
  bottom_check v = (tr, inr tt) → slept tr ≤ 3.
Proof.
  intros Hb. destruct (bottom_check_cases v) as
    [(y & h & w & _ & _ & _ & _ & Eb) | [_ (? & ? & Eb)]];
    rewrite Eb in Hb; [|done].
  injection Hb as <-. destruct (at_bottom y w h); vm_compute; lia.
Qed.

(** From the head of an iteration on: every iteration sleeps 2 seconds, and
    every one but the last at most 3 more. *)
Lemma loop_slept fuel views i st tr m final :
  at_head st →
  scroll_loop fuel views i st = Some (tr, inr (m, final)) →
  i < m ∧ 2 * (m - i) ≤ slept tr ∧ slept tr + 3 ≤ 5 * (m - i).
Proof.
  revert i st tr. induction fuel as [|fuel IH]; intros i st tr [Hc Ha];
    unfold no_new_images_threshold in Ha; simpl.
  - rewrite bool_decide_true by (unfold max_scroll_attempts; lia). done.
  - rewrite bool_decide_true by (unfold max_scroll_attempts; lia).
    destruct (loop_body (views i) st) as [tr1 [e|[c st1]]] eqn:E; [done|].
    pose proof (loop_body_inr _ _ _ _ _ E) as [_ Hcases]. cbv zeta in Hcases.
    assert (size (image_urls st) ≤ size (shown (views i) ∪ image_urls st))
      as Hsize by (apply subseteq_size; set_solver).
    destruct Hcases as
      [(Hg & -> & -> & tr' & Hb & ->)
      | [(Hg & Hs & -> & -> & ->) | (Hg & Hs & -> & -> & tr' & Hb & ->)]];
      cbn [snd fst].
    + destruct (scroll_loop fuel views (S i) _) as [[tr2 r]|] eqn:E2; [|done].
      simpl. intros [= <- ->].
      apply IH in E2 as (H1 & H2 & H3);
        [|split; simpl; [done|unfold no_new_images_threshold; lia]].
      pose proof (bottom_check_slept _ _ Hb) as Hb'.
      change (?a :: ?b :: ?c :: ?d :: ?e :: tr' ++ tr2)
        with ([a; b; c; d; e] ++ tr' ++ tr2).
      rewrite !slept_app.
      change (slept [_; _; _; _; _]) with 2. lia.
    + intros [= <- <- <-]. split; [lia|].
      replace (S i - i) with 1 by lia. vm_compute. lia.
    + unfold no_new_images_threshold in Hs.
      destruct (scroll_loop fuel views (S i) _) as [[tr2 r]|] eqn:E2; [|done].
      simpl. intros [= <- ->].
      apply IH in E2 as (H1 & H2 & H3);
        [|split; simpl; [lia|unfold no_new_images_threshold; lia]].
      pose proof (bottom_check_slept _ _ Hb) as Hb'.
      change (?a :: ?b :: ?c :: ?d :: tr' ++ tr2)
        with ([a; b; c; d] ++ tr' ++ tr2).
      rewrite !slept_app.
      change (slept [_; _; _; _]) with 2. lia.
Qed.

(** X9.  When the [try] body returns after [m] iterations, the script has
    slept 3 seconds after loading the page, 2 seconds in every iteration,
    and at most 3 seconds more in every iteration but the last: between
    [3 + 2 m] and [5 m] seconds, and never less than 9. *)
Theorem seconds_slept fuel (d : session) tr l :
  try_block fuel d = Some (tr, inr l) →
  ∃ tr0 m final,
    scroll_loop fuel (views d) 0 initial = Some (tr0, inr (m, final))
    ∧ 9 ≤ 3 + 2 * m ≤ slept tr ∧ slept tr ≤ 5 * m.
Proof.
  intros Hb.
  destruct (try_block_cases _ _ _ Hb) as
    [(? & _ & [=]) | [(? & ? & _ & _ & [=]) | (tr0 & m & final & _ & Hl & E)]].
  assert (tr = opening_events ++ tr0 ++ (report (image_urls final)).1) as ->
    by congruence.
  exists tr0, m, final. split; [done|].
  pose proof Hl as Hm.
  apply loop_bounds in Hm as (Hm & _); [|apply at_head_initial|simpl; lia].
  apply loop_slept in Hl as (_ & H2 & H3); [|apply at_head_initial].
  assert (slept (report (image_urls final)).1 = 0) as Hr.
  { rewrite report_eq. cbn [fst]. rewrite slept_app.
    induction (zip _ _) as [|iu z IHz]; [done|]. by simpl. }
  rewrite !slept_app, Hr. change (slept opening_events) with 3.
  simpl in Hm. lia.
Qed.

Lemma seconds_slept_witness :
  ∃ tr tr0 m final,
    scroll_loop 5 (views scenario_session) 0 initial
    = Some (tr0, inr (m, final))
    ∧ 9 ≤ 3 + 2 * m ≤ slept tr ∧ slept tr ≤ 5 * m.
Proof.
  eexists. refine (seconds_slept 5 scenario_session _ _ _).
  vm_compute. reflexivity.
Defined.

End SleepProperty.

(** ** X10: the outcome depends on the URLs shown only *)

Section ShownOnly.

Import PyStr Driver Script Page Examples Accounting.
Import MFacts ScanFacts BodyFacts LoopFacts EventFacts RunFacts.

(** An iteration on another view that shows the same URLs, and on which
    nothing raises, takes the same branch and leaves the same state. *)
Lemma loop_body_shown v v' st tr c st1 :
  calm v' = true → shown v' = shown v →
  loop_body v st = (tr, inr (c, st1)) →
  ∃ tr', loop_body v' st = (tr', inr (c, st1)).
Proof.
  intros Hcalm Hshown E.
  destruct (loop_body_calm v' st Hcalm) as (tr' & c' & st1' & E').
  exists tr'. rewrite E'.
  apply loop_body_inr in E as [_ H]. apply loop_body_inr in E' as [_ H'].
  cbv zeta in H, H'. rewrite Hshown in H'.
  destruct H as [(? & -> & -> & _) | [(? & ? & -> & -> & _) | (? & ? & -> & -> & _)]],
    H' as [(? & -> & -> & _) | [(? & ? & -> & -> & _) | (? & ? & -> & -> & _)]];
    done.
Qed.

Lemma scroll_loop_index fuel views i st tr m final :
  scroll_loop fuel views i st = Some (tr, inr (m, final)) → i ≤ m.
Proof.
  revert i st tr. induction fuel as [|fuel IH]; intros i st tr; simpl.
  - case_bool_decide; [done|]. intros [= _ <- _]. done.
  - case_bool_decide; [|intros [= _ <- _]; done].
    destruct (loop_body (views i) st) as [tr1 [e|[[] st1]]]; simpl; [done| |].
    + destruct (scroll_loop fuel views (S i) st1) as [[tr2 r]|] eqn:E2; [|done].
      simpl. intros [= _ ->]. apply IH in E2. lia.
    + intros [= _ <- _]. lia.
Qed.

Lemma scroll_loop_shown fuel views views' i st tr m final :
  (∀ j, i ≤ j < m →
        calm (views' j) = true ∧ shown (views' j) = shown (views j)) →
  scroll_loop fuel views i st = Some (tr, inr (m, final)) →
  ∃ tr', scroll_loop fuel views' i st = Some (tr', inr (m, final)).
Proof.
  revert i st tr. induction fuel as [|fuel IH]; intros i st tr Hv; simpl.
  - case_bool_decide; [done|]. intros [= _ <- <-]. by eexists.
  - case_bool_decide; [|intros [= _ <- <-]; by eexists].
    destruct (loop_body (views i) st) as [tr1 [e|[c st1]]] eqn:E; [done|].
    destruct c; simpl.
    + destruct (scroll_loop fuel views (S i) st1) as [[tr2 r]|] eqn:E2; [|done].
      simpl. intros [= <- ->].
      pose proof (scroll_loop_index _ _ _ _ _ _ _ E2) as Hi.
      destruct (Hv i) as [Hc Hs]; [lia|].
      destruct (loop_body_shown _ _ _ _ _ _ Hc Hs E) as [tr' ->].
      cbn [fst snd].
      apply IH in E2 as [tr2' ->]; [|intros j Hj; apply Hv; lia].
      simpl. by eexists.
    + intros [= <- <- <-]. destruct (Hv i) as [Hc Hs]; [lia|].
      destruct (loop_body_shown _ _ _ _ _ _ Hc Hs E) as [tr' ->].
      cbn [fst snd]. by eexists.
Qed.

(** X10.  The outcome of the loop depends on the page only through the
    URLs it shows at each pass.  When the loop ends after [m] iterations,
    it ends after as many, and with the same state, on every other page
    that shows the same URLs in each of these iterations and on which no
    call raises: the order and the kind of the elements, and the numbers
    the check for the bottom reads (lines 87-91), change the events only. *)
Theorem outcome_depends_on_shown_urls fuel views views' tr m final :
  (∀ j, j < m →
        calm (views' j) = true ∧ shown (views' j) = shown (views j)) →
  scroll_loop fuel views 0 initial = Some (tr, inr (m, final)) →
  ∃ tr', scroll_loop fuel views' 0 initial = Some (tr', inr (m, final)).
Proof.
  intros Hv. apply scroll_loop_shown. intros j Hj. apply Hv. lia.
Qed.

Lemma outcome_depends_on_shown_urls_witness :
  ∃ final tr',
    scroll_loop 5 scenario_at_bottom 0 initial = Some (tr', inr (5, final)).
Proof.
  eexists.
  refine (outcome_depends_on_shown_urls 5 scenario scenario_at_bottom
            _ 5 _ _ _).
  - intros j Hj.
    destruct j as [|[|[|[|[|j]]]]]; [split; vm_compute; reflexivity..|lia].
  - vm_compute. reflexivity.
Defined.

End ShownOnly.
